(** * Read-only SQL gate of the Redshift MCP server

    A shallow embedding of [utils.py], [constants.py] (the SQL guardrails)
    and [server.py] ([execute_sql_tool]), with the properties of the
    statement classifier, the suspicious-pattern guard and the ordering of
    the two gates in front of the database.

    Conventions.
    - A Python [str] is a [string]: every [ascii] stands for one code point
      below 256.
    - A Python call that may raise returns a [result]: [Return v] or
      [Raise e].
    - The SQL parser (sqlglot), the literal compiler (SQLAlchemy) and the
      database are collaborators outside the repository: they are Section
      variables, and the functions of the repository take them as
      arguments once the sections are closed. *)

From Stdlib Require Import Bool Arith Lia List Ascii String.
Import ListNotations.

Set Warnings "-register-all".

Local Open Scope string_scope.
Local Open Scope list_scope.
Local Open Scope nat_scope.

(* ================================================================= *)
(** * Part I. Definitions *)
(* ================================================================= *)

(** ** Python values shared by all modules *)

(** The exception classes the modelled code raises or lets through.  The
    last two derive from [BaseException] without deriving from
    [Exception]. *)
Inductive exn_class : Type :=
| ParseError      (* sqlglot.errors.ParseError / TokenError *)
| IndexError
| ValueError
| CompileError    (* sqlalchemy.exc.CompileError *)
| DatabaseError   (* anything the driver raises *)
| Exception
| CancelledError  (* asyncio.CancelledError *)
| KeyboardInterrupt.

(** An exception object: its class and [str(e)]. *)
Record exn : Type := Exn { exn_cls : exn_class; exn_msg : string }.

(** [isinstance(e, Exception)]. *)
Definition is_exception (e : exn) : bool :=
  match exn_cls e with
  | CancelledError | KeyboardInterrupt => false
  | _ => true
  end.

Inductive result (A : Type) : Type :=
| Return (a : A)
| Raise (e : exn).

Arguments Return {A} a.
Arguments Raise {A} e.

Definition bind {A B : Type} (r : result A) (k : A -> result B) : result B :=
  match r with
  | Return a => k a
  | Raise e => Raise e
  end.

Notation "x <- r ;; k" := (bind r (fun x => k))
  (at level 61, r at next level, right associativity).

(** The line feed, [\n]. *)
Definition LF : ascii := "010"%char.
Definition nl : string := String LF EmptyString.

(** [str.isspace] on one code point below 256: TAB..CR, FS..US, space,
    NEL and NBSP. *)
Definition isspace (c : ascii) : bool :=
  let n := nat_of_ascii c in
  ((9 <=? n) && (n <=? 13)) || ((28 <=? n) && (n <=? 32))
  || (n =? 133) || (n =? 160).

(** [str.lstrip], [str.rstrip] and [str.strip] without argument. *)
Fixpoint lstrip (s : string) : string :=
  match s with
  | EmptyString => EmptyString
  | String c r => if isspace c then lstrip r else s
  end.

Fixpoint rstrip (s : string) : string :=
  match s with
  | EmptyString => EmptyString
  | String c r =>
      match rstrip r with
      | EmptyString => if isspace c then EmptyString else String c EmptyString
      | r' => String c r'
      end
  end.

Definition strip (s : string) : string := rstrip (lstrip s).

(** Truth value of a [str]: non-empty. *)
Definition truthy (s : string) : bool :=
  match s with
  | EmptyString => false
  | String _ _ => true
  end.

(** [str.upper] on the letters a..z, which is all of it that the
    classifier can tell: on the other code points below 256 Python's
    [upper] changes nothing or yields what occurs neither in EXPLAIN nor in
    SHOW (capital letters of Latin-1, code points above 255, SS for the
    sharp s); the model leaves them as they are. *)
Definition upper_char (c : ascii) : ascii :=
  let n := nat_of_ascii c in
  if (97 <=? n) && (n <=? 122) then ascii_of_nat (n - 32) else c.

Fixpoint upper (s : string) : string :=
  match s with
  | EmptyString => EmptyString
  | String c r => String (upper_char c) (upper r)
  end.

(** ** sqlglot expressions *)

(** The expression classes [utils.py] imports, as constructors; every other
    class is [Other] with its name.  [Command.this] is the text of the
    command's first word, [CTE.this] and [Subquery.this] the wrapped
    statement ([None] when the slot is empty).  [args] are the remaining
    child expressions. *)
Inductive Expression : Type :=
| Select (args : list Expression)
| Describe (args : list Expression)
| Values (args : list Expression)
| Command (this : option string) (args : list Expression)
| CTE (this : option Expression) (args : list Expression)
| Subquery (this : option Expression) (args : list Expression)
| Other (cls : string) (args : list Expression).

(** [Expression.iter_expressions]: the child expressions of a node. *)
Definition opt_list {A : Type} (o : option A) : list A :=
  match o with
  | Some a => [a]
  | None => []
  end.

Definition iter_expressions (e : Expression) : list Expression :=
  match e with
  | Select args | Describe args | Values args | Other _ args => args
  | Command _ args => args
  | CTE this args | Subquery this args => opt_list this ++ args
  end.

(** Number of nodes of a tree, the fuel of the breadth-first walk. *)
Fixpoint node_count (e : Expression) : nat :=
  let fix count_all (l : list Expression) : nat :=
    match l with
    | [] => 0
    | x :: r => node_count x + count_all r
    end in
  match e with
  | Select args | Describe args | Values args | Other _ args => S (count_all args)
  | Command _ args => S (count_all args)
  | CTE this args | Subquery this args =>
      S (match this with Some b => node_count b | None => 0 end + count_all args)
  end.

(** Number of nodes of the trees of a queue. *)
Definition total_count (q : list Expression) : nat :=
  list_sum (map node_count q).

(** [Expression.bfs]: pop the head of the queue, yield it, push its
    children at the back. *)
Fixpoint bfs (fuel : nat) (queue : list Expression) : list Expression :=
  match fuel with
  | 0 => []
  | S fuel' =>
      match queue with
      | [] => []
      | node :: rest => node :: bfs fuel' (rest ++ iter_expressions node)
      end
  end.

(** [Expression.walk()] with its default [bfs=True]. *)
Definition walk (e : Expression) : list Expression := bfs (node_count e) [e].

(** [isinstance(x, (Select, Values))], [False] on [None]. *)
Definition is_select_or_values (x : option Expression) : bool :=
  match x with
  | Some (Select _) | Some (Values _) => true
  | _ => false
  end.

(** [exp.this.upper() in {"EXPLAIN", "SHOW"}]. *)
Definition in_explain_show (s : string) : bool :=
  String.eqb s "EXPLAIN" || String.eqb s "SHOW".

(** The first test of [is_read_only_expression]. *)
Definition top_level_check (exp : Expression) : bool :=
  match exp with
  | Select _ | Describe _ => true
  | Command (Some this) _ => truthy this && in_explain_show (upper this)
  | _ => false
  end.

(** One turn of the loop over [exp.walk()]: [false] is the early
    [return False]. *)
Definition node_check (node : Expression) : bool :=
  match node with
  | CTE this _ => is_select_or_values this
  | Subquery this _ => is_select_or_values this
  | _ => true
  end.

Definition is_read_only_expression (exp : Expression) : bool :=
  if negb (top_level_check exp) then false
  else forallb node_check (walk exp).

(** ** validate_sql *)

Definition MSG_EMPTY : string := "SQL statement cannot be empty or whitespace.".
Definition MSG_MULTI : string := "Only one SQL statement is allowed at a time.".
Definition MSG_INVALID : string :=
  "Not a valid SQL statement. Only SELECT, DESCRIBE, SHOW and EXPLAIN statements are allowed.".
Definition MSG_READ_ONLY : string := "This is a read-only SQL statement.".

(** The rejection text [f"{msg}\nInvalid SQL statement: {sql}"]. *)
Definition invalid_message (sql : string) : string :=
  (MSG_INVALID ++ nl ++ "Invalid SQL statement: " ++ sql)%string.

(** [l[0]]. *)
Definition item0 {A : Type} (l : list A) : result A :=
  match l with
  | x :: _ => Return x
  | [] => Raise (Exn IndexError "list index out of range")
  end.

(** What [sqlglot.parse(sql, read="redshift")] gives: a list with one entry
    per semicolon-separated chunk, [None] for a chunk without a statement,
    or a raised error. *)
Definition Parser : Type := string -> result (list (option Expression)).

Section Validate.

Variable sqlglot_parse : Parser.

Definition validate_sql (sql : string) : result (bool * string) :=
  if negb (truthy (strip sql)) then Return (false, MSG_EMPTY)
  else
    processed_sql <- sqlglot_parse sql ;;
    if 1 <? List.length processed_sql then Return (false, MSG_MULTI)
    else
      first <- item0 processed_sql ;;
      match first with
      | None => Return (false, invalid_message sql)
      | Some exp =>
          if negb (is_read_only_expression exp)
          then Return (false, invalid_message sql)
          else Return (true, MSG_READ_ONLY)
      end.

End Validate.

(** ** Regular expressions of the guard *)

(** A text being scanned is a list of code points. *)
Definition text : Type := list ascii.

(** The constructs of the [regex] module that [constants.py] uses, read
    under the pattern's global flags [(?im)]: letters match in either
    case, [^] and [$] also match at line breaks.  [Star] stands for both
    the greedy and the lazy star, which match the same texts. *)
Inductive regex : Type :=
| Eps
| Chr (c : ascii)               (* a literal character *)
| NotIn (cs : list ascii)       (* [^...] *)
| Dot                           (* .   any character but the line feed *)
| Space                         (* \s *)
| Bol                           (* ^ *)
| Eol                           (* $ *)
| Seq (a b : regex)
| Alt (a b : regex)
| Star (a : regex)
| Group (g : nat) (a : regex)   (* (?P<mlc g>...) *)
| Call (g : nat).               (* (?P>mlc g) *)

Definition Opt (a : regex) : regex := Alt a Eps.
Definition Plus (a : regex) : regex := Seq a (Star a).

(** A run of literal characters. *)
Fixpoint lit (s : string) : regex :=
  match s with
  | EmptyString => Eps
  | String c r => Seq (Chr c) (lit r)
  end.

(** Matching in either case, [(?i)]: two code points that differ at most
    by the case of a letter a..z (the letters of the pattern). *)
Definition same_letter (a b : ascii) : bool :=
  Ascii.eqb (upper_char a) (upper_char b).

(** [\s] of the [regex] module on a code point below 256: the White_Space
    property. *)
Definition re_space (c : ascii) : bool :=
  let n := nat_of_ascii c in
  ((9 <=? n) && (n <=? 13)) || (n =? 32) || (n =? 133) || (n =? 160).

Definition mem_char (c : ascii) (cs : list ascii) : bool :=
  existsb (Ascii.eqb c) cs.

(** The definition of the named group [g] inside a pattern. *)
Fixpoint find_group (g : nat) (r : regex) : option regex :=
  match r with
  | Group h a => if g =? h then Some a else find_group g a
  | Seq a b | Alt a b =>
      match find_group g a with
      | Some d => Some d
      | None => find_group g b
      end
  | Star a => find_group g a
  | _ => None
  end.

(** A position in the text: the character before it, if any, and what is
    left to read. *)
Definition cursor : Type := (option ascii * text)%type.

(** [matches P r k k']: [r], a part of the whole pattern [P], matches from
    position [k] to position [k']. *)
Inductive matches (P : regex) : regex -> cursor -> cursor -> Prop :=
| m_eps k : matches P Eps k k
| m_chr c x p s : same_letter c x = true -> matches P (Chr c) (p, x :: s) (Some x, s)
| m_notin cs x p s : mem_char x cs = false -> matches P (NotIn cs) (p, x :: s) (Some x, s)
| m_dot x p s : x <> LF -> matches P Dot (p, x :: s) (Some x, s)
| m_space x p s : re_space x = true -> matches P Space (p, x :: s) (Some x, s)
| m_bol_start s : matches P Bol (None, s) (None, s)
| m_bol_line s : matches P Bol (Some LF, s) (Some LF, s)
| m_eol_end p : matches P Eol (p, []) (p, [])
| m_eol_line p s : matches P Eol (p, LF :: s) (p, LF :: s)
| m_seq a b k k' k'' :
    matches P a k k' -> matches P b k' k'' -> matches P (Seq a b) k k''
| m_alt_l a b k k' : matches P a k k' -> matches P (Alt a b) k k'
| m_alt_r a b k k' : matches P b k k' -> matches P (Alt a b) k k'
| m_star_stop a k : matches P (Star a) k k
| m_star_step a k k' k'' :
    matches P a k k' -> matches P (Star a) k' k'' -> matches P (Star a) k k''
| m_group g a k k' : matches P a k k' -> matches P (Group g a) k k'
| m_call g a k k' :
    find_group g P = Some a -> matches P a k k' -> matches P (Call g) k k'.

(** The character before the end of a text. *)
Definition last_char (pre : text) : option ascii :=
  match rev pre with
  | [] => None
  | c :: _ => Some c
  end.

(** The character before a position reached by reading [t] from a
    position whose previous character was [prev]. *)
Definition after (prev : option ascii) (t : text) : option ascii :=
  match last_char t with
  | Some c => Some c
  | None => prev
  end.

(** [regex.compile(P).search(sql)] finds a match: [P] matches from some
    position of [sql]. *)
Definition regex_search (P : regex) (sql : text) : Prop :=
  exists pre rest k', sql = pre ++ rest /\ matches P P (last_char pre, rest) k'.

(** *** The patterns of [constants.py] *)

(** [re_slc = r"--.*?$"]: single-line comments. *)
Definition re_slc : regex := Seq (lit "--") (Seq (Star Dot) Eol).

(** One turn of the body of a multi-line comment:
    [[^\/\*]|\/[^\*]|\*[^\/]|(?P>mlc{g})]. *)
Definition mlc_item (g : nat) : regex :=
  Alt (NotIn ["/"; "*"]%char)
    (Alt (Seq (Chr "/") (NotIn ["*"]%char))
       (Alt (Seq (Chr "*") (NotIn ["/"]%char))
          (Call g))).

(** What the group [mlc g] holds: the opening, the turns of the body, the
    closing. *)
Definition mlc_body (g : nat) : regex :=
  Seq (lit "/*") (Seq (Star (mlc_item g)) (lit "*/")).

(** [re_mlc(g)]: multi-line comments, considering balanced recursion. *)
Definition re_mlc (g : nat) : regex := Group g (mlc_body g).

(** [re_sp(g)]: whitespaces, comments, semicolons which can occur between
    words. *)
Definition re_sp (g : nat) : regex :=
  Alt re_slc (Alt (re_mlc g) (Alt Space (Chr ";"))).

Definition re_keyword : regex :=
  Alt (lit "END") (Alt (lit "COMMIT") (Alt (lit "ROLLBACK") (lit "ABORT"))).

Definition re_work : regex := Alt (lit "WORK") (lit "TRANSACTION").

(** What follows the opening [(^|;)] of the pattern. *)
Definition re_escape : regex :=
  Seq (Star (re_sp 1))
    (Seq re_keyword
       (Seq (Opt (Seq (Plus (re_sp 2)) re_work))
          (Seq (Star (re_sp 3)) (Chr ";")))).

(** [SUSPICIOUS_QUERY_REGEXP]. *)
Definition SUSPICIOUS_QUERY_REGEXP : regex :=
  Seq (Alt Bol (Chr ";")) re_escape.

(** *** A scanner for the pattern *)

(** After the opening of a multi-line comment, with [depth] comments open
    around it: the text after the comment at [depth] 0 is closed.  The four
    alternatives of [mlc_item] are told apart by the next two characters. *)
Fixpoint mlc_close (depth : nat) (s : text) : option text :=
  match s with
  | [] => None
  | c :: r =>
      if Ascii.eqb c "/" then
        match r with
        | [] => None
        | c2 :: r2 =>
            if Ascii.eqb c2 "*" then mlc_close (S depth) r2
            else mlc_close depth r2
        end
      else if Ascii.eqb c "*" then
        match r with
        | [] => None
        | c2 :: r2 =>
            if Ascii.eqb c2 "/" then
              match depth with
              | 0 => Some r2
              | S d => mlc_close d r2
              end
            else mlc_close depth r2
        end
      else mlc_close depth r
  end.

(** The rest of the line: from the first line feed on. *)
Fixpoint to_eol (s : text) : text :=
  match s with
  | [] => []
  | c :: r => if Ascii.eqb c LF then s else to_eol r
  end.

(** A word at the head of [s], in either case. *)
Fixpoint match_word (w : string) (s : text) : option text :=
  match w with
  | EmptyString => Some s
  | String c w' =>
      match s with
      | x :: s' => if same_letter c x then match_word w' s' else None
      | [] => None
      end
  end.

Fixpoint match_any (ws : list string) (s : text) : option text :=
  match ws with
  | [] => None
  | w :: ws' =>
      match match_word w s with
      | Some r => Some r
      | None => match_any ws' s
      end
  end.

Definition KEYWORDS : list string := ["END"; "COMMIT"; "ROLLBACK"; "ABORT"].
Definition WORK_WORDS : list string := ["WORK"; "TRANSACTION"].

(** The scanner, for any reader of multi-line comments ([read_comment s]
    is what is left of [s], the text after an opening, once the comment is
    closed) and any rule on where a match may start. *)
Section Scanner.

Variable read_comment : text -> option text.
Variable boundary : option ascii -> bool.

(** One separator ([re_sp]) at the head of [s]: what is left after it. *)
Definition sep_token (s : text) : option text :=
  match s with
  | [] => None
  | c :: r =>
      if Ascii.eqb c "-" then
        match r with
        | c2 :: r2 => if Ascii.eqb c2 "-" then Some (to_eol r2) else None
        | [] => None
        end
      else if Ascii.eqb c "/" then
        match r with
        | c2 :: r2 => if Ascii.eqb c2 "*" then read_comment r2 else None
        | [] => None
        end
      else if re_space c || Ascii.eqb c ";" then Some r
      else None
  end.

(** The longest run of separators at the head of [s]: what is left. *)
Fixpoint skip_seps (fuel : nat) (s : text) : text :=
  match fuel with
  | 0 => s
  | S fuel' =>
      match sep_token s with
      | Some r => skip_seps fuel' r
      | None => s
      end
  end.

(** [re_sp* ;] at the head of [s]: a semicolon is met while reading
    separators. *)
Fixpoint ends_statement (fuel : nat) (s : text) : bool :=
  match s with
  | c :: r =>
      if Ascii.eqb c ";" then true
      else
        match fuel with
        | 0 => false
        | S fuel' =>
            match sep_token s with
            | Some r' => ends_statement fuel' r'
            | None => false
            end
        end
  | [] => false
  end.

(** [re_escape] at the head of [s]. *)
Definition match_escape (s : text) : bool :=
  let s1 := skip_seps (List.length s) s in
  match match_any KEYWORDS s1 with
  | None => false
  | Some s2 =>
      ends_statement (List.length s2) s2
      || (let s3 := skip_seps (List.length s2) s2 in
          negb (List.length s3 =? List.length s2)
          && match match_any WORK_WORDS s3 with
             | Some s4 => ends_statement (List.length s4) s4
             | None => false
             end)
  end.

(** The search: try every position of the text from left to right;
    [prev] is the character before the position. *)
Fixpoint scan_from (prev : option ascii) (s : text) : bool :=
  (boundary prev && match_escape s)
  || match s with
     | [] => false
     | c :: r => scan_from (Some c) r
     end.

End Scanner.

(** Where a match of the source pattern may start: [^] under [(?m)] (the
    start of the text or of a line), or a semicolon just read. *)
Definition line_boundary (prev : option ascii) : bool :=
  match prev with
  | None => true
  | Some c => Ascii.eqb c LF || Ascii.eqb c ";"
  end.

(** The scanner of [SUSPICIOUS_QUERY_REGEXP]. *)
Definition suspicious_scan (sql : text) : bool :=
  scan_from (mlc_close 0) line_boundary None sql.

(** ** check_for_suspicious_sql *)

Definition check_for_suspicious_sql (sql : string) : result bool :=
  if suspicious_scan (list_ascii_of_string sql)
  then Raise (Exn Exception
                ("SQL contains suspicious patterns, execution rejected: " ++ sql)%string)
  else Return true.

(** ** The guard in the words of the specification *)

(** The depth-counting scanner over comment delimiters that the
    specification asks of an implementation without recursive patterns:
    [s] is the text after an opening, [depth] the number of comments open
    around it; every opening goes one level deeper, every closing comes
    back one level, any other character is passed over. *)
Fixpoint comment_close (depth : nat) (s : text) : option text :=
  match s with
  | [] => None
  | c :: r =>
      match r with
      | [] => None
      | c2 :: r2 =>
          if Ascii.eqb c "/" && Ascii.eqb c2 "*" then comment_close (S depth) r2
          else if Ascii.eqb c "*" && Ascii.eqb c2 "/" then
            match depth with
            | 0 => Some r2
            | S d => comment_close d r2
            end
          else comment_close depth r
      end
  end.

(** The texts a comment reader takes for one whole multi-line comment. *)
Definition comment_of (read_comment : text -> option text) (t : text) : Prop :=
  exists body, t = "/"%char :: "*"%char :: body /\ read_comment body = Some [].

(** A balanced, possibly nested, multi-line comment. *)
Definition balanced_comment : text -> Prop := comment_of (comment_close 0).

(** A multi-line comment as [re_mlc] reads it. *)
Definition regex_comment : text -> Prop := comment_of (mlc_close 0).

(** [word_of ws w]: [w] is one of the words [ws], in any mix of cases. *)
Definition word_of (ws : list string) (w : text) : Prop :=
  exists k, In k ws /\ map upper_char w = map upper_char (list_ascii_of_string k).

Section Described.

Variable comment : text -> Prop.
Variable boundary : option ascii -> bool.

(** [separator t follow]: [t], read in front of [follow], is one
    separator token: a single-line comment up to the end of the line, a
    multi-line comment, a whitespace character or a semicolon. *)
Inductive separator : text -> text -> Prop :=
| sep_line_comment body follow :
    ~ In LF body ->
    (follow = [] \/ exists f, follow = LF :: f) ->
    separator ("-"%char :: "-"%char :: body) follow
| sep_block_comment t follow : comment t -> separator t follow
| sep_whitespace c follow : re_space c = true -> separator [c] follow
| sep_semicolon follow : separator [";"%char] follow.

(** A run of separator tokens in front of [follow]. *)
Inductive separators : text -> text -> Prop :=
| seps_nil follow : separators [] follow
| seps_cons t ts follow :
    separator t (ts ++ follow) ->
    separators ts follow ->
    separators (t ++ ts) follow.

(** [escape body follow]: [body], in front of [follow], is a run of
    separators, a transaction-control keyword, optionally a non-empty run
    of separators and WORK or TRANSACTION, then a run of separators and
    the terminating semicolon. *)
Definition escape (body follow : text) : Prop :=
  exists s1 kw opt s2,
    body = s1 ++ kw ++ opt ++ s2 ++ [";"%char]
    /\ separators s1 (kw ++ opt ++ s2 ++ ";"%char :: follow)
    /\ word_of KEYWORDS kw
    /\ (opt = []
        \/ exists s w, opt = s ++ w /\ s <> []
             /\ separators s (w ++ s2 ++ ";"%char :: follow)
             /\ word_of WORK_WORDS w)
    /\ separators s2 (";"%char :: follow).

(** The text contains an escape that starts at a boundary. *)
Definition described (sql : text) : Prop :=
  exists pre body post,
    sql = pre ++ body ++ post
    /\ boundary (last_char pre) = true
    /\ escape body post.

End Described.

(** The statement boundary of the specification: the start of the text, or
    immediately after a semicolon. *)
Definition text_boundary (prev : option ascii) : bool :=
  match prev with
  | None => true
  | Some c => Ascii.eqb c ";"
  end.

Fixpoint text_eqb (a b : text) : bool :=
  match a, b with
  | [], [] => true
  | x :: a', y :: b' => Ascii.eqb x y && text_eqb a' b'
  | _, _ => false
  end.

(** The two comment readers agree at every multi-line comment opening of
    the text: [re_mlc] reads a comment there exactly when the
    depth-counting scanner does, and up to the same place. *)
Fixpoint same_comments (s : text) : bool :=
  match s with
  | [] => true
  | c :: r =>
      match r with
      | c2 :: r2 =>
          if Ascii.eqb c "/" && Ascii.eqb c2 "*" then
            match mlc_close 0 r2, comment_close 0 r2 with
            | Some a, Some b => text_eqb a b
            | None, None => true
            | _, _ => false
            end
          else true
      | [] => true
      end && same_comments r
  end.

(** No slash next to a slash and no star next to a star. *)
Fixpoint no_doubles (s : text) : bool :=
  match s with
  | [] => true
  | c :: r =>
      match r with
      | c2 :: _ =>
          negb ((Ascii.eqb c "/" && Ascii.eqb c2 "/")
                || (Ascii.eqb c "*" && Ascii.eqb c2 "*"))
      | [] => true
      end && no_doubles r
  end.

(** ** The tree of an expression *)

(** [subnode n e]: [n] is a node of the tree [e], at any depth. *)
Inductive subnode : Expression -> Expression -> Prop :=
| sub_self e : subnode e e
| sub_child n c e : In c (iter_expressions e) -> subnode n c -> subnode n e.

(** The read-only shape in the words of the specification. *)
Definition top_level_allowed (e : Expression) : Prop :=
  (exists args, e = Select args)
  \/ (exists args, e = Describe args)
  \/ (exists verb args, e = Command (Some verb) args
        /\ (upper verb = "EXPLAIN" \/ upper verb = "SHOW")).

Definition select_or_values (body : option Expression) : Prop :=
  exists args, body = Some (Select args) \/ body = Some (Values args).

Definition nested_allowed (e : Expression) : Prop :=
  forall n, subnode n e ->
    (forall body args, n = CTE body args -> select_or_values body)
    /\ (forall body args, n = Subquery body args -> select_or_values body).

(** ** The parser as a collaborator *)

(** The statements of a parse: its entries that are not [None]. *)
Definition statements (l : list (option Expression)) : list Expression :=
  flat_map (@opt_list Expression) l.

(** What the classifier relies on from the parser: a text made of
    whitespace only holds no statement. *)
Definition blank_has_no_statement (parse : Parser) : Prop :=
  forall sql l,
    truthy (strip sql) = false -> parse sql = Return l -> statements l = [].

(** A [ParseError] of sqlglot; the message it builds (the position and the
    context of the offending token) is not modelled. *)
Definition sqlglot_parse_error : exn := Exn ParseError "ParseError".

(** The parses of the scenarios of the specification and of the test
    suite, as a table: what sqlglot returns on these texts (the trees
    reduced to the nodes the classifier looks at), and its error on a text
    that is not SQL.  The table only serves to run the functions on
    concrete texts; a text outside it is treated as not parsed. *)
Definition table (name : string) : Expression := Other "Table" [Other name []].

Definition scenario_parse : Parser := fun sql =>
  if negb (truthy (strip sql)) then Return [None]
  else if String.eqb sql "SELECT * FROM users;" then
    Return [Some (Select [Other "Star" []; Other "From" [table "users"]])]
  else if String.eqb sql "DELETE FROM users WHERE id=1;" then
    Return [Some (Other "Delete" [table "users"; Other "Where" []])]
  else if String.eqb sql "WITH d AS (DELETE FROM users RETURNING *) SELECT * FROM d;" then
    Return [Some (Select [Other "With"
                            [CTE (Some (Other "Delete" [table "users"]))
                                 [Other "TableAlias" []]];
                          Other "Star" []; Other "From" [table "d"]])]
  else if String.eqb sql "SELECT 1; SELECT 2;" then
    Return [Some (Select [Other "Literal" []]); Some (Select [Other "Literal" []])]
  else if String.eqb sql "-- just a comment" then Return [None]
  else if String.eqb sql "SELECT 1; END; DROP TABLE x;" then
    Return [Some (Select [Other "Literal" []]);
            Some (Other "Commit" []);
            Some (Other "Drop" [table "x"])]
  else if String.eqb sql "SELECT 1;;" then
    Return [Some (Select [Other "Literal" []]); None]
  else if String.eqb sql "SELECT (" then Raise sqlglot_parse_error
  else Raise sqlglot_parse_error.

(** ** quote_sql_literal *)

(** The Python values handed to [quote_sql_literal]. *)
Inductive PyValue : Type :=
| PyStr (s : string)
| PyInt (digits : string)
| PyFloat (repr : string)
| PyBool (b : bool)
| PyNone
| PyDateTime (iso : string)
| PyObject (type_name : string).

Section Quote.

(** [str(literal(value).compile(dialect=postgresql.dialect(),
    compile_kwargs={"literal_binds": True}))], SQLAlchemy's rendering. *)
Variable literal_compile : PyValue -> result string.

Definition quote_sql_literal (value : PyValue) : result string :=
  literal_compile value.

End Quote.

(** ** execute_sql_tool *)

(** What [execute_sql_tool] does, in order.  [Validated] and [Scanned]
    mark the return of the two gates with what they gave; the others are
    the calls to the client, the log and the database. *)
Inductive event : Type :=
| Validated (verdict : result (bool * string))
| Scanned (outcome : result bool)
| CtxError (msg : string)
| LogInfo (msg : string)
| LogError (msg : string)
| RunQuery (sql : string).

(** A computation that leaves a trace and returns or raises. *)
Definition io (A : Type) : Type := (list event * result A)%type.

Definition io_ret {A : Type} (a : A) : io A := ([], Return a).
Definition io_raise {A : Type} (e : exn) : io A := ([], Raise e).
Definition emit (ev : event) : io unit := ([ev], Return tt).

Definition io_bind {A B : Type} (m : io A) (k : A -> io B) : io B :=
  match m with
  | (tr, Return a) => let (tr', r) := k a in (tr ++ tr', r)
  | (tr, Raise e) => (tr, Raise e)
  end.

(** [try: body  except Exception as e: handler(e)]: the handler takes
    the exceptions that are instances of [Exception]; any other one
    leaves the [try] as it came. *)
Definition try_except {A : Type} (body : io A) (handler : exn -> io A) : io A :=
  match body with
  | (tr, Return a) => (tr, Return a)
  | (tr, Raise e) =>
      if is_exception e then let (tr', r) := handler e in (tr ++ tr', r)
      else (tr, Raise e)
  end.

(** A call to a gate: its result is marked in the trace. *)
Definition gate {A : Type} (mark : result A -> event) (r : result A) : io A :=
  ([mark r], r).

Notation "x <~ m ;; k" := (io_bind m (fun x => k))
  (at level 61, m at next level, right associativity).
Notation "m ;;; k" := (io_bind m (fun _ => k))
  (at level 61, right associativity).

Section Server.

Variable sqlglot_parse : Parser.
(** [db.run_query(sql)] followed by [to_markdown]: the table as text. *)
Variable run_query : string -> result string.
(** The text of [execution_time_ms]. *)
Variable execution_time_ms : string.

Definition spaces8 : string := "        ".

Definition execute_sql_tool (sql : string) : io string :=
  v <~ gate Validated (validate_sql sqlglot_parse sql) ;;
  let '(is_read_only, validation_msg) := v in
  if negb is_read_only then
    emit (CtxError validation_msg) ;;;
    io_raise (Exn ValueError validation_msg)
  else
    try_except
      (gate Scanned (check_for_suspicious_sql sql) ;;;
       emit (LogInfo ("Executing SQL statement: " ++ sql)%string) ;;;
       result_md <~ (([RunQuery sql], run_query sql) : io string) ;;
       emit (LogInfo ("SQL statement executed successfully in "
                        ++ execution_time_ms ++ " ms")%string) ;;;
       io_ret (nl ++ spaces8 ++ result_md ++ nl ++ nl ++ spaces8
               ++ "Follow the user's instructions to interpret the results. You want to provide a clear and concise summary of the results, if nothing else is specified."
               ++ nl ++ spaces8)%string)
      (fun e =>
         emit (LogError ("Error executing SQL statement: " ++ exn_msg e)%string) ;;;
         emit (CtxError ("Failed to execute SQL statement: " ++ exn_msg e)%string) ;;;
         io_raise e).

End Server.

(** ** Auxiliary notions of the proofs *)

(** A character that starts a separator. *)
Definition sep_start (c : ascii) : bool :=
  Ascii.eqb c "-" || Ascii.eqb c "/" || re_space c || Ascii.eqb c ";".

(** A capital letter. *)
Definition is_capital (c : ascii) : bool :=
  let n := nat_of_ascii c in (65 <=? n) && (n <=? 90).

(** The first letter of a word, in upper case. *)
Definition first_upper (k : string) : option ascii :=
  match k with
  | EmptyString => None
  | String c _ => Some (upper_char c)
  end.

(** What the scanner does once a comment at depth [d] is closed. *)
Definition resume (d : nat) (s : text) : option text :=
  match d with
  | 0 => Some s
  | S d' => mlc_close d' s
  end.

(** What the derivations of the comment pattern say of the scanner, on
    texts of bounded length. *)
Definition items_below (P : regex) (g n : nat) : Prop :=
  forall p s k', List.length s < n -> matches P (mlc_item g) (p, s) k' ->
                 forall d, mlc_close d s = mlc_close d (snd k').

Definition bodies_upto (P : regex) (g n : nat) : Prop :=
  forall p s k', List.length s <= n -> matches P (mlc_body g) (p, s) k' ->
                 exists body, s = "/"%char :: "*"%char :: body
                              /\ forall d, mlc_close d body = resume d (snd k').

From Stdlib Require Import NArith.

(** ** db_utils.py: the RedshiftDB singleton *)

(** [sqlalchemy.engine.URL], with the fields [URL.create] is given. *)
Record URL : Type := mkURL {
  drivername : string;
  username : string;
  password : string;
  database : string;
  url_host : string;
  port : N;
  query : list (string * string)
}.

(** An engine, known by the URL it was created for. *)
Record Engine : Type := mkEngine { engine_url : URL }.

(** [ThreadPoolExecutor(max_workers=n)]. *)
Record ThreadPoolExecutor : Type := mkPool { max_workers : nat }.

(** An object of the class: [self.engine], [self.host]. *)
Record RedshiftDB : Type := mkRedshiftDB { engine : Engine; host : string }.

(** The class attributes [RedshiftDB._instance] and
    [RedshiftDB._executor]. *)
Record class_state : Type := mkState {
  _instance : option RedshiftDB;
  _executor : option ThreadPoolExecutor
}.

(** The attributes as the class body sets them. *)
Definition fresh_class : class_state :=
  {| _instance := None; _executor := None |}.

(** What the module raises, besides what comes from the database. *)
Inductive db_exn : Type :=
| KeyError (key : string)        (* os.environ[key] *)
| RuntimeError (msg : string)
| Raised (e : exn).

(** What the module does to the outside. *)
Inductive db_event : Type :=
| EngineCreated (u : URL)                  (* create_engine(u) *)
| EngineDisposed (e : Engine)              (* e.dispose() *)
| ExecutorCreated (p : ThreadPoolExecutor)
| ExecutorShutdown (p : ThreadPoolExecutor)  (* p.shutdown(wait=True) *)
| Submitted (p : option ThreadPoolExecutor) (e : Engine) (sql : string).
    (* loop.run_in_executor(p, ...): [None] is the loop's default executor *)

(** A method: it reads and writes the class attributes, leaves a trace and
    returns or raises. *)
Definition dbm (A : Type) : Type :=
  class_state -> list db_event * class_state * (db_exn + A).

Definition db_ret {A : Type} (a : A) : dbm A := fun st => ([], st, inr a).
Definition db_raise {A : Type} (e : db_exn) : dbm A := fun st => ([], st, inl e).
Definition db_emit (ev : db_event) : dbm unit := fun st => ([ev], st, inr tt).
Definition db_get : dbm class_state := fun st => ([], st, inr st).
Definition db_put (st' : class_state) : dbm unit := fun _ => ([], st', inr tt).

Definition db_bind {A B : Type} (m : dbm A) (k : A -> dbm B) : dbm B :=
  fun st =>
    match m st with
    | (tr, st', inr a) =>
        match k a st' with
        | (tr', st'', r) => (tr ++ tr', st'', r)
        end
    | (tr, st', inl e) => (tr, st', inl e)
    end.

Notation "x <~~ m ;; k" := (db_bind m (fun x => k))
  (at level 61, m at next level, right associativity).
Notation "m ;;;; k" := (db_bind m (fun _ => k))
  (at level 61, right associativity).

(** [os.environ]: a mapping from names to values. *)
Definition Environ : Type := string -> option string.

(** [os.environ[key]]. *)
Definition getenv (environ : Environ) (key : string) : dbm string :=
  match environ key with
  | Some v => db_ret v
  | None => db_raise (KeyError key)
  end.

(** [RedshiftDB.__init__(self, engine, host)]. *)
Definition init (engine : Engine) (host : string) : dbm RedshiftDB :=
  st <~~ db_get ;;
  match _instance st with
  | Some _ =>
      db_raise (RuntimeError "RedshiftDB is a singleton class, use connect() method.")
  | None =>
      let self := {| engine := engine; host := host |} in
      match _executor st with
      | None =>
          db_emit (ExecutorCreated (mkPool 3)) ;;;;
          db_put {| _instance := _instance st; _executor := Some (mkPool 3) |} ;;;;
          db_ret self
      | Some _ => db_ret self
      end
  end.

(** [RedshiftDB.connect()]. *)
Definition connect (environ : Environ) : dbm RedshiftDB :=
  st <~~ db_get ;;
  match _instance st with
  | Some inst => db_ret inst
  | None =>
      redshift_host <~~ getenv environ "REDSHIFT_HOST" ;;
      user <~~ getenv environ "REDSHIFT_USER" ;;
      pass <~~ getenv environ "REDSHIFT_PASSWORD" ;;
      db <~~ getenv environ "REDSHIFT_DB" ;;
      host <~~ getenv environ "REDSHIFT_HOST" ;;
      let redshift_url :=
        {| drivername := "redshift_custom";
           username := user;
           password := pass;
           database := db;
           url_host := host;
           port := 5439%N;
           query := [("sslmode", "require")] |} in
      db_emit (EngineCreated redshift_url) ;;;;
      self <~~ init (mkEngine redshift_url) redshift_host ;;
      st <~~ db_get ;;
      db_put {| _instance := Some self; _executor := _executor st |} ;;;;
      db_ret self
  end.

(** [RedshiftDB.disconnect(self)]. *)
Definition disconnect (self : RedshiftDB) : dbm unit :=
  db_emit (EngineDisposed (engine self)) ;;;;
  st <~~ db_get ;;
  match _executor st with
  | Some p =>
      db_emit (ExecutorShutdown p) ;;;;
      db_put {| _instance := _instance st; _executor := None |}
  | None => db_ret tt
  end.

(** [RedshiftDB.run_query(self, sql)]: [_run_query_sync] is handed to the
    executor; [execute] is what the engine answers (the frame of the rows,
    or what the driver raises). *)
Definition db_run_query {DataFrame : Type}
    (execute : Engine -> string -> result DataFrame)
    (self : RedshiftDB) (sql : string) : dbm DataFrame :=
  st <~~ db_get ;;
  db_emit (Submitted (_executor st) (engine self) sql) ;;;;
  match execute (engine self) sql with
  | Return frame => db_ret frame
  | Raise e => db_raise (Raised e)
  end.

(** [app_lifespan] of [server.py]: connect, hand the database to the
    application ([yield]), and disconnect when the application is done,
    also when it raised. *)
Definition app_lifespan {A : Type} (environ : Environ)
    (application : RedshiftDB -> dbm A) : dbm A :=
  redshift_db <~~ connect environ ;;
  fun st =>
    match application redshift_db st with
    | (tr, st', r) =>
        match disconnect redshift_db st' with
        | (tr', st'', inr _) => (tr ++ tr', st'', r)
        | (tr', st'', inl e) => (tr ++ tr', st'', inl e)
        end
    end.

(** A client of the class: a sequence of calls. *)
Inductive db_call : Type :=
| CallConnect (environ : Environ)
| CallDisconnect.

(** The calls one after the other; [disconnect] is called on the stored
    instance, and skipped when there is none.  A call that raises does not
    stop the client. *)
Fixpoint run_calls (calls : list db_call) (st : class_state)
  : list db_event * class_state :=
  match calls with
  | [] => ([], st)
  | CallConnect environ :: rest =>
      match connect environ st with
      | (tr, st', _) =>
          let (tr', st'') := run_calls rest st' in (tr ++ tr', st'')
      end
  | CallDisconnect :: rest =>
      match _instance st with
      | Some self =>
          match disconnect self st with
          | (tr, st', _) =>
              let (tr', st'') := run_calls rest st' in (tr ++ tr', st'')
          end
      | None => run_calls rest st
      end
  end.

(** The variables [connect] reads, in the order it reads them. *)
Definition REQUIRED_VARIABLES : list string :=
  ["REDSHIFT_HOST"; "REDSHIFT_USER"; "REDSHIFT_PASSWORD"; "REDSHIFT_DB"].

(** The first name of a list that the environment does not define. *)
Fixpoint first_missing (environ : Environ) (names : list string) : option string :=
  match names with
  | [] => None
  | name :: rest =>
      match environ name with
      | Some _ => first_missing environ rest
      | None => Some name
      end
  end.

Definition is_engine_created (ev : db_event) : bool :=
  match ev with
  | EngineCreated _ => true
  | _ => false
  end.

Definition is_executor_created (ev : db_event) : bool :=
  match ev with
  | ExecutorCreated _ => true
  | _ => false
  end.

(** How many engines and how many pools a trace creates. *)
Definition created (tr : list db_event) : nat * nat :=
  (List.length (filter is_engine_created tr),
   List.length (filter is_executor_created tr)).

(** An environment with the four variables, and the object [connect]
    builds from it. *)
Definition example_environ : Environ := fun name =>
  if String.eqb name "REDSHIFT_HOST" then Some "cluster.example"
  else if String.eqb name "REDSHIFT_USER" then Some "reader"
  else if String.eqb name "REDSHIFT_PASSWORD" then Some "secret"
  else if String.eqb name "REDSHIFT_DB" then Some "dev"
  else None.

Definition example_url : URL :=
  {| drivername := "redshift_custom";
     username := "reader";
     password := "secret";
     database := "dev";
     url_host := "cluster.example";
     port := 5439%N;
     query := [("sslmode", "require")] |}.

Definition example_instance : RedshiftDB :=
  {| engine := mkEngine example_url; host := "cluster.example" |}.

From Stdlib Require Import DecimalString.

(** ** constants.py: the catalog queries *)

(** The databases of the cluster. *)
Definition SVV_REDSHIFT_DATABASES_QUERY : string := "
SELECT
    database_name,
    database_owner,
    database_type,
    database_acl,
    database_options,
    database_isolation_level
FROM pg_catalog.svv_redshift_databases
ORDER BY database_name;
".

(** The schemas of a database; one replacement field. *)
Definition SVV_ALL_SCHEMAS_QUERY : string := "
SELECT
    database_name,
    schema_name,
    schema_owner,
    schema_type,
    schema_acl,
    source_database,
    schema_option
FROM pg_catalog.svv_all_schemas
WHERE database_name = {}
ORDER BY schema_name;
".

(** The tables of a schema; two replacement fields. *)
Definition SVV_ALL_TABLES_QUERY : string := "
SELECT
    database_name,
    schema_name,
    table_name,
    table_acl,
    table_type,
    remarks
FROM pg_catalog.svv_all_tables
WHERE database_name = {} AND schema_name = {}
ORDER BY table_name;
".

(** The columns of a table; three replacement fields. *)
Definition SVV_ALL_COLUMNS_QUERY : string := "
SELECT
    database_name,
    schema_name,
    table_name,
    column_name,
    ordinal_position,
    column_default,
    is_nullable,
    data_type,
    character_maximum_length,
    numeric_precision,
    numeric_scale,
    remarks
FROM pg_catalog.svv_all_columns
WHERE database_name = {} AND schema_name = {} AND table_name = {}
ORDER BY ordinal_position;
".

(** ** str.format on a template *)

(** [str(n)] for a natural number. *)
Definition str_of_nat (n : nat) : string :=
  NilZero.string_of_uint (Nat.to_uint n).

(** The text in front of what is left of a formatted template. *)
Definition prepend (s : string) (r : option (result string))
  : option (result string) :=
  match r with
  | Some (Return t) => Some (Return (s ++ t)%string)
  | other => other
  end.

(** [tpl.format] on its positional arguments from left to right, [idx] being the number of
    fields already replaced: [{}] is replaced by the next argument, [{{]
    and [}}] stand for one brace, a lone brace is a [ValueError], a field
    without an argument left an [IndexError].  A field with a name, an
    index, a conversion or a format specification is outside of what is
    modelled: [None]. *)
Fixpoint format (tpl : string) (idx : nat) (args : list string)
  : option (result string) :=
  match tpl with
  | EmptyString => Some (Return EmptyString)
  | String c r =>
      if Ascii.eqb c "{" then
        match r with
        | EmptyString =>
            Some (Raise (Exn ValueError "Single '{' encountered in format string"))
        | String c2 r2 =>
            if Ascii.eqb c2 "{" then prepend "{" (format r2 idx args)
            else if Ascii.eqb c2 "}" then
              match nth_error args idx with
              | Some a => prepend a (format r2 (S idx) args)
              | None =>
                  Some (Raise (Exn IndexError
                    ("Replacement index " ++ str_of_nat idx
                     ++ " out of range for positional args tuple")%string))
              end
            else None
        end
      else if Ascii.eqb c "}" then
        match r with
        | String c2 r2 =>
            if Ascii.eqb c2 "}" then prepend "}" (format r2 idx args)
            else Some (Raise (Exn ValueError "Single '}' encountered in format string"))
        | EmptyString =>
            Some (Raise (Exn ValueError "Single '}' encountered in format string"))
        end
      else prepend (String c EmptyString) (format r idx args)
  end.

(** [tpl.format] on its positional arguments where the templates of [constants.py] are
    formatted; they hold no field outside of what is modelled. *)
Definition str_format (tpl : string) (args : list string) : result string :=
  match format tpl 0 args with
  | Some r => r
  | None => Raise (Exn ValueError "a replacement field that is not modelled")
  end.

(** ** server.py: the catalog tools *)

(** The classes of [models.py] that the tools build. *)
Inductive model_class : Type :=
| RedshiftDatabase
| RedshiftSchema
| RedshiftTable
| RedshiftColumn.

Definition lift {A : Type} (r : result A) : io A := ([], r).

(** A call to one of the four catalog tools, with its arguments. *)
Inductive catalog_call : Type :=
| ListDatabases
| ListSchemas (db_name : string)
| ListTables (db_name schema_name : string)
| ListColumns (db_name schema_name table_name : string).

Section CatalogTools.

(** SQLAlchemy's rendering of a literal, as in [quote_sql_literal]. *)
Variable literal_compile : PyValue -> result string.
(** Frames, their records ([to_dict(orient="records")]) and the objects
    pydantic builds from a record ([model_validate], which may raise). *)
Variable DataFrame Row Model : Type.
Variable to_dict : DataFrame -> list Row.
Variable model_validate : model_class -> Row -> result Model.
(** [frame[column] = frame[column].astype("Int64")]. *)
Variable astype_Int64 : DataFrame -> string -> result DataFrame.
(** [await db.run_query(sql)] and [db.host]. *)
Variable run_query : string -> result DataFrame.
Variable db_host : string.

(** [[cls.model_validate(r) for r in records]]. *)
Fixpoint validate_all (cls : model_class) (records : list Row)
  : result (list Model) :=
  match records with
  | [] => Return []
  | r :: rest =>
      m <- model_validate cls r ;;
      ms <- validate_all cls rest ;;
      Return (m :: ms)
  end.

(** The loop over the columns to convert. *)
Fixpoint astype_all (columns : list string) (frame : DataFrame)
  : result DataFrame :=
  match columns with
  | [] => Return frame
  | column :: rest =>
      frame' <- astype_Int64 frame column ;;
      astype_all rest frame'
  end.

(** [await db.run_query(sql)], the call being left in the trace. *)
Definition query_database (sql : string) : io DataFrame :=
  ([RunQuery sql], run_query sql).

(** The [except Exception as e] of the four tools: log, tell the client,
    raise again. *)
Definition report (log_msg client_msg : string) (e : exn) {A : Type} : io A :=
  emit (LogError (log_msg ++ exn_msg e)%string) ;;;
  emit (CtxError (client_msg ++ exn_msg e)%string) ;;;
  io_raise e.

Definition list_database_tool : io (list Model) :=
  try_except
    (emit (LogInfo ("Listing databases in the Redshift cluster " ++ db_host)%string) ;;;
     database_data <~ query_database SVV_REDSHIFT_DATABASES_QUERY ;;
     databases <~ lift (validate_all RedshiftDatabase (to_dict database_data)) ;;
     emit (LogInfo ("Successfully retrieved " ++ str_of_nat (List.length databases)
                      ++ " databases from cluster")%string) ;;;
     io_ret databases)
    (fun e =>
       report "Error in list_databases_tool: "
              ("Failed to list databases on cluster " ++ db_host ++ ": ")%string e).

Definition list_schemas_tool (db_name : string) : io (list Model) :=
  try_except
    (emit (LogInfo ("Listing schemas for database: " ++ db_name
                      ++ " in cluster " ++ db_host)%string) ;;;
     q_db <~ lift (quote_sql_literal literal_compile (PyStr db_name)) ;;
     sql <~ lift (str_format SVV_ALL_SCHEMAS_QUERY [q_db]) ;;
     schema_data <~ query_database sql ;;
     schemas <~ lift (validate_all RedshiftSchema (to_dict schema_data)) ;;
     emit (LogInfo ("Successfully retrieved " ++ str_of_nat (List.length schemas)
                      ++ " schemas for database " ++ db_name)%string) ;;;
     io_ret schemas)
    (fun e =>
       report ("Error listing schemas for database " ++ db_name ++ ": ")%string
              ("Failed to list schemas for database " ++ db_name
               ++ " on cluster " ++ db_host ++ ": ")%string e).

Definition list_tables_tool (db_name schema_name : string) : io (list Model) :=
  try_except
    (emit (LogInfo ("Listing tables for database: " ++ db_name ++ ", schema: "
                      ++ schema_name ++ " in cluster " ++ db_host)%string) ;;;
     q_db <~ lift (quote_sql_literal literal_compile (PyStr db_name)) ;;
     q_schema <~ lift (quote_sql_literal literal_compile (PyStr schema_name)) ;;
     sql <~ lift (str_format SVV_ALL_TABLES_QUERY [q_db; q_schema]) ;;
     table_data <~ query_database sql ;;
     tables <~ lift (validate_all RedshiftTable (to_dict table_data)) ;;
     emit (LogInfo ("Successfully retrieved " ++ str_of_nat (List.length tables)
                      ++ " tables for database " ++ db_name ++ ", schema "
                      ++ schema_name)%string) ;;;
     io_ret tables)
    (fun e =>
       report ("Error listing tables for database " ++ db_name ++ ", schema "
               ++ schema_name ++ ": ")%string
              ("Failed to list tables for database " ++ db_name ++ ", schema "
               ++ schema_name ++ " on cluster " ++ db_host ++ ": ")%string e).

Definition INT_COLUMNS : list string :=
  ["numeric_precision"; "numeric_scale"; "character_maximum_length"].

Definition list_columns_tool (db_name schema_name table_name : string)
  : io (list Model) :=
  try_except
    (emit (LogInfo ("Listing columns for database: " ++ db_name ++ ", schema: "
                      ++ schema_name ++ ", table: " ++ table_name
                      ++ " in cluster " ++ db_host)%string) ;;;
     q_db <~ lift (quote_sql_literal literal_compile (PyStr db_name)) ;;
     q_schema <~ lift (quote_sql_literal literal_compile (PyStr schema_name)) ;;
     q_table <~ lift (quote_sql_literal literal_compile (PyStr table_name)) ;;
     sql <~ lift (str_format SVV_ALL_COLUMNS_QUERY [q_db; q_schema; q_table]) ;;
     columns_data_df <~ query_database sql ;;
     columns_data_df <~ lift (astype_all INT_COLUMNS columns_data_df) ;;
     columns <~ lift (validate_all RedshiftColumn (to_dict columns_data_df)) ;;
     emit (LogInfo ("Successfully retrieved " ++ str_of_nat (List.length columns)
                      ++ " columns for database " ++ db_name ++ ", schema "
                      ++ schema_name ++ ", table " ++ table_name)%string) ;;;
     io_ret columns)
    (fun e =>
       report ("Error listing columns for database " ++ db_name ++ ", schema "
               ++ schema_name ++ ", table " ++ table_name ++ ": ")%string
              ("Failed to list columns for database " ++ db_name ++ ", schema "
               ++ schema_name ++ ", table " ++ table_name ++ " on cluster "
               ++ db_host ++ ": ")%string e).

(** The tool a call runs. *)
Definition run_tool (call : catalog_call) : io (list Model) :=
  match call with
  | ListDatabases => list_database_tool
  | ListSchemas db_name => list_schemas_tool db_name
  | ListTables db_name schema_name => list_tables_tool db_name schema_name
  | ListColumns db_name schema_name table_name =>
      list_columns_tool db_name schema_name table_name
  end.

(** [quote_sql_literal] on the names of a call, from left to right. *)
Fixpoint quote_all (names : list string) : result (list string) :=
  match names with
  | [] => Return []
  | name :: rest =>
      l <- quote_sql_literal literal_compile (PyStr name) ;;
      ls <- quote_all rest ;;
      Return (l :: ls)
  end.

(** The shape the four tools share: the names quoted, the template
    formatted, the database asked, the columns converted, the records
    validated; messages apart. *)
Definition catalog_tool (start : string) (done : nat -> string)
    (log_msg client_msg : string) (names : list string) (tpl : string)
    (columns : list string) (cls : model_class) : io (list Model) :=
  try_except
    (emit (LogInfo start) ;;;
     literals <~ lift (quote_all names) ;;
     sql <~ lift (str_format tpl literals) ;;
     frame <~ query_database sql ;;
     frame' <~ lift (astype_all columns frame) ;;
     models <~ lift (validate_all cls (to_dict frame')) ;;
     emit (LogInfo (done (List.length models))) ;;;
     io_ret models)
    (fun e => report log_msg client_msg e).

End CatalogTools.

(** The names a call passes, the template it fills, the columns it
    converts and the class of the objects it returns. *)
Definition tool_names (call : catalog_call) : list string :=
  match call with
  | ListDatabases => []
  | ListSchemas db_name => [db_name]
  | ListTables db_name schema_name => [db_name; schema_name]
  | ListColumns db_name schema_name table_name =>
      [db_name; schema_name; table_name]
  end.

Definition tool_template (call : catalog_call) : string :=
  match call with
  | ListDatabases => SVV_REDSHIFT_DATABASES_QUERY
  | ListSchemas _ => SVV_ALL_SCHEMAS_QUERY
  | ListTables _ _ => SVV_ALL_TABLES_QUERY
  | ListColumns _ _ _ => SVV_ALL_COLUMNS_QUERY
  end.

Definition tool_int_columns (call : catalog_call) : list string :=
  match call with
  | ListColumns _ _ _ => INT_COLUMNS
  | _ => []
  end.

Definition tool_class (call : catalog_call) : model_class :=
  match call with
  | ListDatabases => RedshiftDatabase
  | ListSchemas _ => RedshiftSchema
  | ListTables _ _ => RedshiftTable
  | ListColumns _ _ _ => RedshiftColumn
  end.


(** Collaborators for examples: literals in single quotes, frames as the
    list of their records, a record being valid when it is not empty. *)
Definition example_literal_compile (value : PyValue) : result string :=
  match value with
  | PyStr s => Return ("'" ++ s ++ "'")%string
  | _ => Raise (Exn CompileError "not a string")
  end.

Definition example_model_validate (_ : model_class) (row : string)
  : result string :=
  match row with
  | EmptyString => Raise (Exn ValueError "validation error")
  | _ => Return row
  end.

Definition example_astype (frame : list string) (_ : string)
  : result (list string) := Return frame.

Definition example_run_query (sql : string) : result (list string) :=
  Return ["dev"; "prod"].


(** ** Templates cut at their fields *)

(** A text without a brace. *)
Fixpoint no_brace (t : string) : bool :=
  match t with
  | EmptyString => true
  | String c r => negb (Ascii.eqb c "{" || Ascii.eqb c "}") && no_brace r
  end.

(** The template made of [p0] and, for each further piece, a field [{}]
    and the piece. *)
Fixpoint template_of (p0 : string) (pieces : list string) : string :=
  match pieces with
  | [] => p0
  | p :: rest => (p0 ++ "{}" ++ template_of p rest)%string
  end.

(** The pieces with the arguments in the place of the fields; [None] when
    the arguments run out. *)
Fixpoint fill (p0 : string) (pieces args : list string) : option string :=
  match pieces with
  | [] => Some p0
  | p :: rest =>
      match args with
      | a :: args' =>
          match fill p rest args' with
          | Some s => Some (p0 ++ a ++ s)%string
          | None => None
          end
      | [] => None
      end
  end.

(** How many calls to the database a trace holds. *)
Definition is_run_query (ev : event) : bool :=
  match ev with
  | RunQuery _ => true
  | _ => false
  end.

(** [filled tpl args out]: [out] is the template [tpl] with its fields
    [{}], all of them, replaced by the arguments [args], all of them, in
    order, every other character kept. *)
Inductive filled : string -> list string -> string -> Prop :=
| filled_end : filled EmptyString [] EmptyString
| filled_char c tpl args out :
    Ascii.eqb c "{" || Ascii.eqb c "}" = false ->
    filled tpl args out ->
    filled (String c tpl) args (String c out)
| filled_field tpl a args out :
    filled tpl args out ->
    filled ("{}" ++ tpl)%string (a :: args) (a ++ out)%string.

(** A template cut at its fields [{}]: the first piece and the others. *)
Fixpoint cut_fields (tpl : string) : string * list string :=
  match tpl with
  | EmptyString => (EmptyString, [])
  | String c r =>
      match r with
      | String c2 r2 =>
          if Ascii.eqb c "{" && Ascii.eqb c2 "}" then
            (EmptyString, let (p, ps) := cut_fields r2 in p :: ps)
          else let (p, ps) := cut_fields r in (String c p, ps)
      | EmptyString => (String c EmptyString, [])
      end
  end.


(** How a tool leaves its [try] when the body raised [e] after the trace
    [pre]: through the handler, which logs, tells the client and raises
    again, when [e] is an [Exception]; as it came otherwise. *)
Definition failed {A : Type} (log_msg client_msg : string)
    (pre : list event) (e : exn) : io A :=
  if is_exception e then
    (pre ++ [LogError (log_msg ++ exn_msg e);
             CtxError (client_msg ++ exn_msg e)], Raise e)
  else (pre, Raise e).


(* ================================================================= *)
(** * Part II. Theorems *)
(* ================================================================= *)

(** ** Strings *)

Lemma truthy_false_iff (s : string) : truthy s = false <-> s = EmptyString.
Proof. destruct s; simpl; split; congruence. Qed.

Lemma lstrip_empty_iff (s : string) :
  lstrip s = EmptyString <-> forallb isspace (list_ascii_of_string s) = true.
Proof.
  induction s as [|c r IH]; simpl.
  - tauto.
  - destruct (isspace c); simpl.
    + exact IH.
    + split; discriminate.
Qed.

Lemma rstrip_keeps_head (c : ascii) (r : string) :
  isspace c = false -> rstrip (String c r) <> EmptyString.
Proof.
  intros Hc. simpl. destruct (rstrip r); [rewrite Hc|]; discriminate.
Qed.

Lemma lstrip_head (s : string) :
  lstrip s = EmptyString \/ exists c r, lstrip s = String c r /\ isspace c = false.
Proof.
  induction s as [|c r IH]; simpl.
  - now left.
  - destruct (isspace c) eqn:Hc.
    + exact IH.
    + right. now exists c, r.
Qed.

(** [sql.strip()] is empty exactly when [sql] is empty or whitespace only. *)
Lemma strip_empty_iff (s : string) :
  strip s = EmptyString <-> forallb isspace (list_ascii_of_string s) = true.
Proof.
  unfold strip. rewrite <- lstrip_empty_iff. split.
  - intros H. destruct (lstrip_head s) as [E | (c & r & E & Hc)]; [exact E|].
    rewrite E in H. now apply rstrip_keeps_head in H.
  - intros ->. reflexivity.
Qed.

(** ** The walk over an expression *)


Lemma node_count_children (e : Expression) :
  node_count e = S (total_count (iter_expressions e)).
Proof.
  assert (Hfix : forall l,
    (fix count_all (l : list Expression) : nat :=
       match l with
       | [] => 0
       | x :: r => node_count x + count_all r
       end) l = total_count l).
  { induction l as [|x r IH]; simpl; [reflexivity|].
    unfold total_count in *. simpl. now rewrite IH. }
  destruct e as [a|a|a|t a|t a|t a|c a]; simpl; rewrite Hfix; try reflexivity;
    destruct t; unfold total_count; simpl; reflexivity.
Qed.

Lemma total_count_app (a b : list Expression) :
  total_count (a ++ b) = total_count a + total_count b.
Proof. unfold total_count. now rewrite map_app, list_sum_app. Qed.

Lemma total_count_cons (e : Expression) (q : list Expression) :
  total_count (e :: q) = S (total_count (iter_expressions e) + total_count q).
Proof.
  change (total_count (e :: q)) with (node_count e + total_count q).
  now rewrite node_count_children.
Qed.

Lemma subnode_cases (n e : Expression) :
  subnode n e <-> n = e \/ exists c, In c (iter_expressions e) /\ subnode n c.
Proof.
  split.
  - intros H. destruct H as [e | n c e Hin Hs].
    + now left.
    + right. now exists c.
  - intros [-> | (c & Hin & Hs)].
    + constructor.
    + now apply sub_child with c.
Qed.

(** With enough fuel the breadth-first walk yields exactly the nodes of
    the trees in the queue. *)
Lemma bfs_In (fuel : nat) :
  forall queue n,
    total_count queue <= fuel ->
    (In n (bfs fuel queue) <-> exists e, In e queue /\ subnode n e).
Proof.
  induction fuel as [|fuel IH]; intros queue n Hfuel.
  - destruct queue as [|e q].
    + simpl. split; [tauto | intros (e & [] & _)].
    + rewrite total_count_cons in Hfuel. lia.
  - destruct queue as [|e q]; simpl.
    + split; [tauto | intros (e & [] & _)].
    + assert (Hq : total_count (q ++ iter_expressions e) <= fuel).
      { rewrite total_count_app. rewrite total_count_cons in Hfuel. lia. }
      rewrite (IH _ n Hq). split.
      * intros [<- | (c & Hin & Hs)].
        -- exists e. split; [now left | constructor].
        -- apply in_app_or in Hin. destruct Hin as [Hin | Hin].
           ++ exists c. split; [now right | exact Hs].
           ++ exists e. split; [now left | now apply sub_child with c].
      * intros (x & [<- | Hin] & Hs).
        -- apply subnode_cases in Hs. destruct Hs as [-> | (c & Hin & Hs)].
           ++ now left.
           ++ right. exists c. split; [apply in_or_app; now right | exact Hs].
        -- right. exists x. split; [apply in_or_app; now left | exact Hs].
Qed.

(** [exp.walk()] visits exactly the nodes of [exp]. *)
Lemma walk_In (e n : Expression) : In n (walk e) <-> subnode n e.
Proof.
  unfold walk. rewrite bfs_In.
  - split.
    + intros (x & [<- | []] & Hs). exact Hs.
    + intros Hs. exists e. split; [now left | exact Hs].
  - rewrite total_count_cons, node_count_children.
    unfold total_count at 2. simpl. lia.
Qed.

(** ** is_read_only_expression *)

Lemma is_select_or_values_iff (body : option Expression) :
  is_select_or_values body = true <-> select_or_values body.
Proof.
  unfold select_or_values. split.
  - destruct body as [[a|a|a|t a|t a|t a|c a]|]; simpl; try discriminate; intros _.
    + exists a. now left.
    + exists a. now right.
  - intros (a & [-> | ->]); reflexivity.
Qed.

Lemma top_level_check_iff (e : Expression) :
  top_level_check e = true <-> top_level_allowed e.
Proof.
  unfold top_level_allowed. split.
  - destruct e as [a|a|a|t a|t a|t a|c a]; simpl; try discriminate.
    + intros _. left. now exists a.
    + intros _. right. left. now exists a.
    + destruct t as [verb|]; [|discriminate]. intros H.
      apply andb_true_iff in H. destruct H as [_ H].
      unfold in_explain_show in H. apply orb_true_iff in H.
      right. right. exists verb, a. split; [reflexivity|].
      destruct H as [H | H]; apply String.eqb_eq in H; tauto.
  - intros [(a & ->) | [(a & ->) | (verb & a & -> & H)]]; simpl; try reflexivity.
    apply andb_true_iff. split.
    + destruct verb; [|reflexivity]. simpl in H. destruct H; discriminate.
    + unfold in_explain_show. apply orb_true_iff.
      destruct H as [-> | ->]; [left | right]; reflexivity.
Qed.

Lemma node_check_iff (n : Expression) :
  node_check n = true <->
  (forall body args, n = CTE body args -> select_or_values body)
  /\ (forall body args, n = Subquery body args -> select_or_values body).
Proof.
  split.
  - intros H. split; intros body args ->; simpl in H;
      now apply is_select_or_values_iff.
  - intros [Hc Hs]. destruct n as [a|a|a|t a|t a|t a|c a]; simpl; try reflexivity.
    + apply is_select_or_values_iff. now apply Hc with a.
    + apply is_select_or_values_iff. now apply Hs with a.
Qed.

(** The classifier accepts exactly the read-only shape. *)
Lemma is_read_only_expression_iff (e : Expression) :
  is_read_only_expression e = true <-> top_level_allowed e /\ nested_allowed e.
Proof.
  unfold is_read_only_expression, nested_allowed.
  rewrite <- top_level_check_iff.
  destruct (top_level_check e); simpl.
  - rewrite forallb_forall. split.
    + intros H. split; [reflexivity|]. intros n Hn.
      apply node_check_iff, H, walk_In, Hn.
    + intros [_ H] n Hn. apply node_check_iff, H, walk_In, Hn.
  - split; [discriminate | intros [H _]; discriminate].
Qed.

(** ** validate_sql *)

Section ValidateFacts.

Variable parse : Parser.

(** Every way [validate_sql] accepts. *)
Lemma validate_sql_accepts (sql msg : string) :
  validate_sql parse sql = Return (true, msg) <->
  truthy (strip sql) = true
  /\ msg = MSG_READ_ONLY
  /\ exists e, parse sql = Return [Some e] /\ is_read_only_expression e = true.
Proof.
  unfold validate_sql.
  destruct (truthy (strip sql)); simpl.
  2:{ split; [discriminate | intros [H _]; discriminate]. }
  destruct (parse sql) as [l|err]; simpl.
  2:{ split; [discriminate | intros (_ & _ & e & H & _); discriminate]. }
  destruct l as [|[e|] [|y l]]; simpl;
    try (split; [discriminate | intros (_ & _ & e' & H & _); discriminate]).
  destruct (is_read_only_expression e) eqn:Hro; simpl.
  - split.
    + intros H. injection H as <-. repeat split. now exists e.
    + intros (_ & -> & _). reflexivity.
  - split; [discriminate|].
    intros (_ & _ & e' & H & Hro'). injection H as <-. congruence.
Qed.

(** On a text that is not blank, [validate_sql] follows the parse. *)
Lemma validate_sql_nonblank (sql : string) :
  truthy (strip sql) = true ->
  validate_sql parse sql =
    (processed_sql <- parse sql ;;
     if 1 <? List.length processed_sql then Return (false, MSG_MULTI)
     else
       first <- item0 processed_sql ;;
       match first with
       | None => Return (false, invalid_message sql)
       | Some exp =>
           if negb (is_read_only_expression exp)
           then Return (false, invalid_message sql)
           else Return (true, MSG_READ_ONLY)
       end).
Proof. intros H. unfold validate_sql. now rewrite H. Qed.

End ValidateFacts.

Lemma statements_length (l : list (option Expression)) :
  List.length (statements l) <= List.length l.
Proof.
  induction l as [|[e|] l IH]; simpl; lia.
Qed.

Lemma scenario_parse_contract : blank_has_no_statement scenario_parse.
Proof.
  intros sql l Hblank H. unfold scenario_parse in H. rewrite Hblank in H.
  simpl in H. injection H as <-. reflexivity.
Qed.

(** A parse that holds exactly one statement is that statement alone, or
    has more than one entry. *)
Lemma statements_one (l : list (option Expression)) (e : Expression) :
  statements l = [e] -> l = [Some e] \/ 1 < List.length l.
Proof.
  destruct l as [|[x|] [|y l']]; simpl; intros H;
    try discriminate; try (right; lia).
  left. congruence.
Qed.

(** C1, as the code has it.  Take a text whose parse [l] holds exactly
    one top-level statement [e].  [validate_sql] accepts if and only if
    [l] is the single entry [e], [e] is a Select, a Describe or a Command
    whose verb is EXPLAIN or SHOW once put in upper case, and every CTE
    node and every Subquery node of the tree of [e], at any depth, has a
    Select or a Values as its body.  When [l] is the single entry [e], a
    violation rejects the whole statement with the "Not a valid SQL
    statement" text; when [l] holds [e] among further, empty entries (a
    trailing empty statement), the text is rejected with "Only one SQL
    statement is allowed at a time.", whatever [e] is. *)
Theorem validate_sql_accepts_iff_read_only_shape
    (parse : Parser) (sql : string) (l : list (option Expression))
    (e : Expression) :
  blank_has_no_statement parse ->
  parse sql = Return l ->
  statements l = [e] ->
  ((exists msg, validate_sql parse sql = Return (true, msg))
   <-> l = [Some e] /\ top_level_allowed e /\ nested_allowed e)
  /\ (l = [Some e] -> ~ (top_level_allowed e /\ nested_allowed e) ->
      validate_sql parse sql = Return (false, invalid_message sql))
  /\ (l <> [Some e] ->
      validate_sql parse sql =
        Return (false, "Only one SQL statement is allowed at a time.")).
Proof.
  intros Hblank Hparse Hone.
  assert (Hnb : truthy (strip sql) = true).
  { destruct (truthy (strip sql)) eqn:E; [reflexivity|].
    rewrite (Hblank sql _ E Hparse) in Hone. discriminate. }
  rewrite <- is_read_only_expression_iff. split; [|split].
  - split.
    + intros (msg & H). apply validate_sql_accepts in H.
      destruct H as (_ & _ & e' & He' & Hro).
      rewrite Hparse in He'. injection He' as ->.
      simpl in Hone. injection Hone as <-. auto.
    + intros (-> & Hro). exists MSG_READ_ONLY. apply validate_sql_accepts.
      repeat split; [exact Hnb|]. now exists e.
  - intros -> Hno. rewrite (validate_sql_nonblank parse sql Hnb), Hparse. simpl.
    destruct (is_read_only_expression e); [now destruct Hno | reflexivity].
  - intros Hl. destruct (statements_one l e Hone) as [-> | Hmany];
      [now destruct Hl|].
    rewrite (validate_sql_nonblank parse sql Hnb), Hparse. simpl.
    apply Nat.ltb_lt in Hmany. now rewrite Hmany.
Qed.

Lemma validate_sql_accepts_iff_read_only_shape_witness :
  [Some (Select [Other "Star" []; Other "From" [table "users"]])]
  = [Some (Select [Other "Star" []; Other "From" [table "users"]])]
  /\ top_level_allowed (Select [Other "Star" []; Other "From" [table "users"]])
  /\ nested_allowed (Select [Other "Star" []; Other "From" [table "users"]]).
Proof.
  apply (proj1 (proj1 (validate_sql_accepts_iff_read_only_shape
                         scenario_parse "SELECT * FROM users;" _ _
                         scenario_parse_contract eq_refl eq_refl))).
  exists MSG_READ_ONLY. reflexivity.
Defined.

(** C1, as the specification words it, fails: "SELECT 1;;" parses to
    exactly one statement, a Select with nothing disallowed in it,
    followed by an empty entry for the empty statement after the first
    semicolon; the text is not accepted, it is rejected as several
    statements. *)
Lemma validate_sql_trailing_empty_statement_counterexample :
  scenario_parse "SELECT 1;;"
  = Return [Some (Select [Other "Literal" []]); None]
  /\ statements [Some (Select [Other "Literal" []]); None]
     = [Select [Other "Literal" []]]
  /\ (top_level_allowed (Select [Other "Literal" []])
      /\ nested_allowed (Select [Other "Literal" []]))
  /\ validate_sql scenario_parse "SELECT 1;;"
     = Return (false, "Only one SQL statement is allowed at a time.")
  /\ ~ (exists msg, validate_sql scenario_parse "SELECT 1;;" = Return (true, msg)).
Proof.
  split; [reflexivity|]. split; [reflexivity|].
  split; [now apply is_read_only_expression_iff|].
  split; [reflexivity|].
  intros (msg & H). discriminate.
Qed.

(** C2, on the code.  [validate_sql] returns one verdict whenever the
    parser returns (at least one entry); when the parser returns a single
    empty entry (a text without a statement), the verdict is the
    rejection "Not a valid SQL statement. ..." followed by a line feed,
    "Invalid SQL statement: " and the text itself, as its docstring
    promises of every call.  But the call to the parser stands in no
    [try]: an error raised by the parser on a text that is not blank
    leaves [validate_sql] as it came, and no verdict is returned. *)
Theorem validate_sql_verdict_or_parser_error (parse : Parser) (sql : string) :
  (forall l, parse sql = Return l -> l <> [] ->
     exists verdict, validate_sql parse sql = Return verdict)
  /\ (truthy (strip sql) = true -> parse sql = Return [None] ->
      validate_sql parse sql =
        Return (false,
                ("Not a valid SQL statement. Only SELECT, DESCRIBE, SHOW and EXPLAIN statements are allowed."
                 ++ nl ++ "Invalid SQL statement: " ++ sql)%string))
  /\ (forall err, truthy (strip sql) = true -> parse sql = Raise err ->
      validate_sql parse sql = Raise err).
Proof.
  split; [|split].
  - intros l Hparse Hl. unfold validate_sql.
    destruct (truthy (strip sql)); simpl; [|eauto].
    rewrite Hparse. simpl.
    destruct l as [|[e|] [|y l]]; simpl; try congruence; eauto.
    destruct (is_read_only_expression e); simpl; eauto.
  - intros Hnb Hparse.
    rewrite (validate_sql_nonblank parse sql Hnb), Hparse. reflexivity.
  - intros err Hnb Hparse.
    rewrite (validate_sql_nonblank parse sql Hnb), Hparse. reflexivity.
Qed.

Lemma validate_sql_verdict_or_parser_error_witness :
  validate_sql scenario_parse "-- just a comment" =
    Return (false,
            ("Not a valid SQL statement. Only SELECT, DESCRIBE, SHOW and EXPLAIN statements are allowed."
             ++ nl ++ "Invalid SQL statement: " ++ "-- just a comment")%string).
Proof.
  apply (proj1 (proj2 (validate_sql_verdict_or_parser_error
                         scenario_parse "-- just a comment")));
    reflexivity.
Defined.

(** C2 fails on the code: on "SELECT (", a text the parser refuses, the
    parser's error comes out of [validate_sql]; the rejection the
    docstring promises is not returned. *)
Lemma validate_sql_parse_error_counterexample :
  scenario_parse "SELECT (" = Raise sqlglot_parse_error
  /\ validate_sql scenario_parse "SELECT (" = Raise sqlglot_parse_error
  /\ ~ (exists verdict, validate_sql scenario_parse "SELECT (" = Return verdict).
Proof.
  split; [reflexivity|]. split; [reflexivity|].
  intros (v & H). discriminate.
Qed.

(** C6.  A text that parses to more than one top-level statement is
    rejected with "Only one SQL statement is allowed at a time.", whatever
    the statements are. *)
Theorem validate_sql_rejects_several_statements
    (parse : Parser) (sql : string) (l : list (option Expression)) :
  blank_has_no_statement parse ->
  parse sql = Return l ->
  1 < List.length (statements l) ->
  validate_sql parse sql = Return (false, "Only one SQL statement is allowed at a time.").
Proof.
  intros Hblank Hparse Hmany.
  assert (Hnb : truthy (strip sql) = true).
  { destruct (truthy (strip sql)) eqn:E; [reflexivity|].
    rewrite (Hblank sql _ E Hparse) in Hmany. simpl in Hmany. lia. }
  rewrite (validate_sql_nonblank parse sql Hnb), Hparse. simpl.
  pose proof (statements_length l) as Hlen.
  destruct (1 <? List.length l) eqn:E; [reflexivity|].
  apply Nat.ltb_ge in E. lia.
Qed.

Lemma validate_sql_rejects_several_statements_witness :
  validate_sql scenario_parse "SELECT 1; SELECT 2;" =
    Return (false, "Only one SQL statement is allowed at a time.").
Proof.
  apply (validate_sql_rejects_several_statements
           scenario_parse "SELECT 1; SELECT 2;" _ scenario_parse_contract eq_refl).
  simpl. lia.
Defined.

(** The count is of the entries of the parse, empty ones included: a
    text that is not blank and parses to more than one entry is rejected
    as several statements, also when only one entry holds a statement. *)
Theorem validate_sql_rejects_several_entries
    (parse : Parser) (sql : string) (l : list (option Expression)) :
  truthy (strip sql) = true ->
  parse sql = Return l ->
  1 < List.length l ->
  validate_sql parse sql = Return (false, "Only one SQL statement is allowed at a time.").
Proof.
  intros Hnb Hparse Hmany.
  rewrite (validate_sql_nonblank parse sql Hnb), Hparse. simpl.
  apply Nat.ltb_lt in Hmany. now rewrite Hmany.
Qed.

Lemma validate_sql_rejects_several_entries_witness :
  validate_sql (fun _ => Return [Some (Select []); None]) "SELECT 1;;" =
    Return (false, "Only one SQL statement is allowed at a time.").
Proof.
  apply (validate_sql_rejects_several_entries
           (fun _ => Return [Some (Select []); None]) "SELECT 1;;"
           [Some (Select []); None]); [reflexivity | reflexivity | simpl; lia].
Defined.

(** C7.  A text whose [strip()] is empty is rejected with "SQL statement
    cannot be empty or whitespace.", for every parser, also one that
    raises on every text: the parser is not consulted. *)
Theorem validate_sql_rejects_blank (parse : Parser) (sql : string) :
  strip sql = EmptyString ->
  validate_sql parse sql = Return (false, "SQL statement cannot be empty or whitespace.").
Proof.
  intros H. unfold validate_sql. rewrite H. reflexivity.
Qed.

Lemma validate_sql_rejects_blank_witness :
  validate_sql (fun _ => Raise (Exn ParseError "unreachable")) "  " =
    Return (false, "SQL statement cannot be empty or whitespace.").
Proof.
  apply validate_sql_rejects_blank. reflexivity.
Defined.

(** C10.  Whenever [validate_sql] accepts, its message is "This is a
    read-only SQL statement." and nothing else. *)
Theorem validate_sql_accept_message (parse : Parser) (sql msg : string) :
  validate_sql parse sql = Return (true, msg) ->
  msg = "This is a read-only SQL statement.".
Proof.
  intros H. apply validate_sql_accepts in H. now destruct H as (_ & -> & _).
Qed.

Lemma validate_sql_accept_message_witness :
  MSG_READ_ONLY = "This is a read-only SQL statement.".
Proof.
  apply (validate_sql_accept_message scenario_parse "SELECT * FROM users;").
  reflexivity.
Defined.

(** ** execute_sql_tool *)

Lemma check_for_suspicious_sql_cases (sql : string) :
  (suspicious_scan (list_ascii_of_string sql) = false
   /\ check_for_suspicious_sql sql = Return true)
  \/ (suspicious_scan (list_ascii_of_string sql) = true
      /\ exists e, check_for_suspicious_sql sql = Raise e).
Proof.
  unfold check_for_suspicious_sql.
  destruct (suspicious_scan (list_ascii_of_string sql)); [right | left];
    split; eauto.
Qed.

(** What the guard raises is an [Exception]. *)
Lemma check_for_suspicious_sql_is_exception (sql : string) (e : exn) :
  check_for_suspicious_sql sql = Raise e -> is_exception e = true.
Proof.
  unfold check_for_suspicious_sql.
  destruct (suspicious_scan (list_ascii_of_string sql)); [|discriminate].
  intros H. injection H as <-. reflexivity.
Qed.

Section ServerFacts.

Variable parse : Parser.
Variable run_query : string -> result string.
Variable ms : string.

Let run (sql : string) : io string := execute_sql_tool parse run_query ms sql.

(** The trace of a request, gate by gate. *)
Lemma execute_sql_tool_validate_raises (sql : string) (e : exn) :
  validate_sql parse sql = Raise e ->
  run sql = ([Validated (Raise e)], Raise e).
Proof.
  intros H. unfold run, execute_sql_tool, gate. rewrite H. reflexivity.
Qed.

Lemma execute_sql_tool_validate_rejects (sql msg : string) :
  validate_sql parse sql = Return (false, msg) ->
  run sql = ([Validated (Return (false, msg)); CtxError msg],
             Raise (Exn ValueError msg)).
Proof.
  intros H. unfold run, execute_sql_tool, gate. rewrite H. reflexivity.
Qed.

Lemma execute_sql_tool_scan_raises (sql msg : string) (e : exn) :
  validate_sql parse sql = Return (true, msg) ->
  check_for_suspicious_sql sql = Raise e ->
  run sql = ([Validated (Return (true, msg)); Scanned (Raise e);
              LogError ("Error executing SQL statement: " ++ exn_msg e)%string;
              CtxError ("Failed to execute SQL statement: " ++ exn_msg e)%string],
             Raise e).
Proof.
  intros Hv Hs. pose proof (check_for_suspicious_sql_is_exception sql e Hs) as He.
  unfold run, execute_sql_tool, gate. rewrite Hv, Hs.
  cbn [io_bind negb try_except]. rewrite He. reflexivity.
Qed.

Lemma execute_sql_tool_runs (sql msg : string) :
  validate_sql parse sql = Return (true, msg) ->
  check_for_suspicious_sql sql = Return true ->
  exists post,
    fst (run sql) =
      [Validated (Return (true, msg)); Scanned (Return true);
       LogInfo ("Executing SQL statement: " ++ sql)%string;
       RunQuery sql] ++ post
    /\ forall q, ~ In (RunQuery q) post.
Proof.
  intros Hv Hs. unfold run, execute_sql_tool, gate. rewrite Hv, Hs.
  destruct (run_query sql) as [md|e]; simpl.
  - eexists. split; [reflexivity|]. intros q [H | []]. discriminate.
  - destruct (is_exception e); simpl.
    + eexists. split; [reflexivity|]. intros q [H | [H | []]]; discriminate.
    + exists []. split; [reflexivity|]. intros q [].
Qed.

End ServerFacts.

(** C4.  In every run of [execute_sql_tool], a call to the database is
    preceded in the trace by the return of [validate_sql] with an accepting
    verdict and by the return of [check_for_suspicious_sql] without a
    signal, and it carries the text that passed them; when either gate
    rejects (or raises), the trace holds no call to the database. *)
Theorem execute_sql_tool_gates_precede_database
    (parse : Parser) (run_query : string -> result string) (ms sql : string) :
  (forall pre q post,
      fst (execute_sql_tool parse run_query ms sql) = pre ++ RunQuery q :: post ->
      q = sql
      /\ (exists msg, validate_sql parse sql = Return (true, msg)
                      /\ In (Validated (Return (true, msg))) pre)
      /\ check_for_suspicious_sql sql = Return true
      /\ In (Scanned (Return true)) pre)
  /\ ((forall msg, validate_sql parse sql <> Return (true, msg))
      \/ check_for_suspicious_sql sql <> Return true ->
      forall q, ~ In (RunQuery q) (fst (execute_sql_tool parse run_query ms sql))).
Proof.
  assert (Hsplit : forall (l pre post : list event) q,
             l = pre ++ RunQuery q :: post -> In (RunQuery q) l).
  { intros l pre post q ->. apply in_or_app. right. now left. }
  destruct (validate_sql parse sql) as [[[|] msg]|e] eqn:Hv.
  - destruct (check_for_suspicious_sql_cases sql) as [[_ Hs] | [_ [e Hs]]].
    + destruct (execute_sql_tool_runs parse run_query ms sql msg Hv Hs)
        as (tail & Htr & Htail).
      rewrite Htr. split.
      * intros pre q post H.
        destruct pre as [|e1 [|e2 [|e3 [|e4 pre]]]]; simpl in H;
          try discriminate.
        -- injection H as H1 H2. 
           split; [congruence|]. split; [exists msg|]; simpl; auto 6.
        -- injection H as _ _ _ _ H. exfalso.
           apply (Htail q). rewrite H. apply in_or_app. right. now left.
      * intros [H | H]; [now destruct (H msg) | now destruct H].
    + rewrite (execute_sql_tool_scan_raises parse run_query ms sql msg e Hv Hs).
      simpl. split.
      * intros pre q post H. apply Hsplit in H. simpl in H.
        destruct H as [H | [H | [H | [H | []]]]]; discriminate.
      * intros _ q H. simpl in H.
        destruct H as [H | [H | [H | [H | []]]]]; discriminate.
  - rewrite (execute_sql_tool_validate_rejects parse run_query ms sql msg Hv).
    simpl. split.
    + intros pre q post H. apply Hsplit in H. simpl in H.
      destruct H as [H | [H | []]]; discriminate.
    + intros _ q H. simpl in H. destruct H as [H | [H | []]]; discriminate.
  - rewrite (execute_sql_tool_validate_raises parse run_query ms sql e Hv).
    simpl. split.
    + intros pre q post H. apply Hsplit in H. simpl in H.
      destruct H as [H | []]; discriminate.
    + intros _ q H. simpl in H. destruct H as [H | []]; discriminate.
Qed.

(** ** The scanner and the description of the guard *)

(** *** Characters *)

Lemma ascii_eqb_true (a b : ascii) : Ascii.eqb a b = true -> a = b.
Proof. apply Ascii.eqb_eq. Qed.

Lemma ascii_eqb_false (a b : ascii) : Ascii.eqb a b = false -> a <> b.
Proof. apply Ascii.eqb_neq. Qed.

Lemma same_letter_iff (a b : ascii) :
  same_letter a b = true <-> upper_char a = upper_char b.
Proof. unfold same_letter. apply Ascii.eqb_eq. Qed.



(** A letter, in either case, never starts a separator. *)
Lemma letter_not_sep_start (c : ascii) :
  is_capital (upper_char c) = true -> sep_start c = false.
Proof.
  destruct c as [[] [] [] [] [] [] [] []]; vm_compute; congruence.
Qed.

(** *** The rest of the line *)

Lemma to_eol_split (x : text) :
  exists body, x = body ++ to_eol x /\ ~ In LF body
               /\ (to_eol x = [] \/ exists f, to_eol x = LF :: f).
Proof.
  induction x as [|c x (body & Hx & Hno & Hend)]; simpl.
  - exists []. simpl. tauto.
  - destruct (Ascii.eqb c LF) eqn:E.
    + apply ascii_eqb_true in E. subst c.
      exists []. simpl. repeat split; [tauto|]. right. now exists x.
    + apply ascii_eqb_false in E.
      exists (c :: body). simpl. split; [now f_equal|]. split; [|exact Hend].
      intros [H | H]; [congruence | tauto].
Qed.

Lemma to_eol_app (body r : text) :
  ~ In LF body -> (r = [] \/ exists f, r = LF :: f) -> to_eol (body ++ r) = r.
Proof.
  intros Hno Hend. induction body as [|c body IH]; simpl.
  - destruct Hend as [-> | (f & ->)]; reflexivity.
  - destruct (Ascii.eqb c LF) eqn:E.
    + apply ascii_eqb_true in E. subst c. destruct Hno. now left.
    + apply IH. intros H. apply Hno. now right.
Qed.

(** *** Separators *)

Section ScannerFacts.

Variable read : text -> option text.
Variable boundary : option ascii -> bool.

Hypothesis read_app : forall t r, read t = Some [] -> read (t ++ r) = Some r.
Hypothesis read_split :
  forall x r, read x = Some r -> exists t, x = t ++ r /\ read t = Some [].

Let comment : text -> Prop := comment_of read.

Lemma separator_nonempty (t f : text) : separator comment t f -> t <> [].
Proof.
  intros H. destruct H as [body f _ _ | t f (body & -> & _) | c f _ | f];
    discriminate.
Qed.

Lemma separator_sep_token (t f : text) :
  separator comment t f -> sep_token read (t ++ f) = Some f.
Proof.
  intros H. destruct H as [body f Hno Hend | t f (body & -> & Hb) | c f Hc | f].
  - simpl. now rewrite to_eol_app.
  - simpl. now apply read_app.
  - simpl. destruct (Ascii.eqb c "-") eqn:E1.
    { apply ascii_eqb_true in E1. subst c. discriminate. }
    destruct (Ascii.eqb c "/") eqn:E2.
    { apply ascii_eqb_true in E2. subst c. discriminate. }
    now rewrite Hc.
  - reflexivity.
Qed.

Lemma sep_token_separator (x r : text) :
  sep_token read x = Some r ->
  exists t, x = t ++ r /\ separator comment t r.
Proof.
  destruct x as [|c x]; simpl; [discriminate|].
  destruct (Ascii.eqb c "-") eqn:E1.
  { apply ascii_eqb_true in E1. subst c.
    destruct x as [|c2 x]; [discriminate|].
    destruct (Ascii.eqb c2 "-") eqn:E2; [|discriminate].
    apply ascii_eqb_true in E2. subst c2.
    intros H. injection H as <-.
    destruct (to_eol_split x) as (body & Hx & Hno & Hend).
    exists ("-"%char :: "-"%char :: body). split.
    - simpl. now rewrite <- Hx.
    - now constructor. }
  destruct (Ascii.eqb c "/") eqn:E2.
  { apply ascii_eqb_true in E2. subst c.
    destruct x as [|c2 x]; [discriminate|].
    destruct (Ascii.eqb c2 "*") eqn:E3; [|discriminate].
    apply ascii_eqb_true in E3. subst c2.
    intros H. destruct (read_split _ _ H) as (body & -> & Hb).
    exists ("/"%char :: "*"%char :: body). split; [reflexivity|].
    apply sep_block_comment. now exists body. }
  destruct (re_space c) eqn:E3; simpl.
  { intros H. injection H as <-. exists [c]. split; [reflexivity|].
    now apply sep_whitespace. }
  destruct (Ascii.eqb c ";") eqn:E4; [|discriminate].
  apply ascii_eqb_true in E4. subst c.
  intros H. injection H as <-. exists [";"%char]. split; [reflexivity|].
  apply sep_semicolon.
Qed.

Lemma sep_token_shorter (x r : text) :
  sep_token read x = Some r -> List.length r < List.length x.
Proof.
  intros H. destruct (sep_token_separator _ _ H) as (t & -> & Ht).
  apply separator_nonempty in Ht. rewrite length_app.
  destruct t; [congruence | simpl; lia].
Qed.

Lemma sep_token_needs_start (c : ascii) (x : text) :
  sep_start c = false -> sep_token read (c :: x) = None.
Proof.
  unfold sep_start. intros H.
  apply orb_false_iff in H. destruct H as [H H4].
  apply orb_false_iff in H. destruct H as [H H3].
  apply orb_false_iff in H. destruct H as [H1 H2].
  simpl. now rewrite H1, H2, H3, H4.
Qed.

Lemma separators_app (s1 s2 f : text) :
  separators comment s1 (s2 ++ f) -> separators comment s2 f ->
  separators comment (s1 ++ s2) f.
Proof.
  intros H1 H2. remember (s2 ++ f) as g eqn:Hg.
  induction H1 as [g | t ts g Ht Hts IH]; subst g.
  - exact H2.
  - rewrite <- app_assoc. constructor.
    + now rewrite <- app_assoc.
    + now apply IH.
Qed.

(** The longest run of separators. *)
Lemma skip_seps_split (fuel : nat) :
  forall x, exists s, x = s ++ skip_seps read fuel x
                      /\ separators comment s (skip_seps read fuel x).
Proof.
  induction fuel as [|fuel IH]; intros x; simpl.
  - exists []. split; [reflexivity | constructor].
  - destruct (sep_token read x) as [r|] eqn:E.
    + destruct (sep_token_separator _ _ E) as (t & -> & Ht).
      destruct (IH r) as (s & Hr & Hs).
      exists (t ++ s). split.
      * rewrite <- app_assoc. now rewrite <- Hr.
      * constructor; [now rewrite <- Hr | exact Hs].
    + exists []. split; [reflexivity | constructor].
Qed.

Lemma skip_seps_run (s f : text) :
  separators comment s f ->
  sep_token read f = None ->
  forall fuel, List.length (s ++ f) <= fuel -> skip_seps read fuel (s ++ f) = f.
Proof.
  intros Hs Hf. induction Hs as [f | t ts f Ht Hts IH]; intros fuel Hfuel.
  - destruct fuel; simpl; [reflexivity | now rewrite Hf].
  - pose proof (separator_nonempty _ _ Ht) as Hne.
    rewrite <- app_assoc in *. rewrite length_app in Hfuel.
    destruct fuel as [|fuel].
    { destruct t; [congruence | simpl in Hfuel; lia]. }
    simpl. rewrite (separator_sep_token _ _ Ht).
    apply IH; [exact Hf|].
    destruct t; [congruence | simpl in Hfuel; lia].
Qed.

(** A run of separators up to a semicolon. *)
Lemma ends_statement_split (fuel : nat) :
  forall x, ends_statement read fuel x = true ->
            exists s r, x = s ++ ";"%char :: r
                        /\ separators comment s (";"%char :: r).
Proof.
  induction fuel as [|fuel IH]; intros x; destruct x as [|c x];
    cbn [ends_statement]; try discriminate.
  - destruct (Ascii.eqb c ";") eqn:E; [|discriminate].
    apply ascii_eqb_true in E. subst c. intros _.
    exists [], x. split; [reflexivity | constructor].
  - destruct (Ascii.eqb c ";") eqn:E.
    + apply ascii_eqb_true in E. subst c. intros _.
      exists [], x. split; [reflexivity | constructor].
    + destruct (sep_token read (c :: x)) as [r'|] eqn:Et; [|discriminate].
      intros H. destruct (IH _ H) as (s & r & -> & Hs).
      destruct (sep_token_separator _ _ Et) as (t & Hx & Ht).
      exists (t ++ s), r. split.
      * now rewrite <- app_assoc.
      * now constructor.
Qed.

Lemma ends_statement_run (s r : text) :
  separators comment s (";"%char :: r) ->
  forall fuel, List.length (s ++ ";"%char :: r) <= fuel ->
               ends_statement read fuel (s ++ ";"%char :: r) = true.
Proof.
  intros Hs. remember (";"%char :: r) as f eqn:Hf.
  induction Hs as [f | t ts f Ht Hts IH]; intros fuel Hfuel; subst f.
  - destruct fuel; reflexivity.
  - specialize (IH eq_refl).
    pose proof (separator_nonempty _ _ Ht) as Hne.
    pose proof (separator_sep_token _ _ Ht) as Htok.
    rewrite <- app_assoc in *. rewrite length_app in Hfuel.
    destruct t as [|c t]; [congruence|]. simpl in Hfuel.
    destruct fuel as [|fuel]; [lia|].
    change ((c :: t) ++ ts ++ ";"%char :: r) with (c :: t ++ ts ++ ";"%char :: r) in *.
    cbn [ends_statement].
    destruct (Ascii.eqb c ";"); [reflexivity|].
    rewrite Htok. apply IH. lia.
Qed.

End ScannerFacts.

(** *** Words *)


Lemma match_word_split (w : string) :
  forall x r, match_word w x = Some r ->
              exists t, x = t ++ r
                        /\ map upper_char t = map upper_char (list_ascii_of_string w).
Proof.
  induction w as [|c w IH]; intros x r; simpl.
  - intros H. injection H as <-. now exists [].
  - destruct x as [|a x]; [discriminate|].
    destruct (same_letter c a) eqn:E; [|discriminate].
    apply same_letter_iff in E. intros H.
    destruct (IH _ _ H) as (t & -> & Ht).
    exists (a :: t). split; [reflexivity|]. simpl. now rewrite Ht, E.
Qed.

Lemma match_word_app (w : string) :
  forall t r, map upper_char t = map upper_char (list_ascii_of_string w) ->
              match_word w (t ++ r) = Some r.
Proof.
  induction w as [|c w IH]; intros t r; simpl.
  - destruct t; [reflexivity | discriminate].
  - destruct t as [|a t]; [discriminate|]. simpl. intros H.
    injection H as Ha Ht.
    assert (E : same_letter c a = true) by (apply same_letter_iff; congruence).
    rewrite E. now apply IH.
Qed.

Lemma match_word_first (w : string) (x r : text) :
  match_word w x = Some r -> w <> EmptyString ->
  exists c x', x = c :: x' /\ first_upper w = Some (upper_char c).
Proof.
  destruct w as [|c w]; [congruence|]. simpl.
  destruct x as [|a x]; [discriminate|].
  destruct (same_letter c a) eqn:E; [|discriminate].
  apply same_letter_iff in E. intros _ _. exists a, x.
  split; [reflexivity | now rewrite E].
Qed.

Lemma match_any_split (ws : list string) :
  forall x r, match_any ws x = Some r ->
              exists t, x = t ++ r /\ word_of ws t.
Proof.
  induction ws as [|w ws IH]; intros x r; simpl; [discriminate|].
  destruct (match_word w x) as [r'|] eqn:E.
  - intros H. injection H as <-.
    destruct (match_word_split _ _ _ E) as (t & -> & Ht).
    exists t. split; [reflexivity|]. exists w. split; [now left | exact Ht].
  - intros H. destruct (IH _ _ H) as (t & -> & k & Hin & Ht).
    exists t. split; [reflexivity|]. exists k. split; [now right | exact Ht].
Qed.

(** Words that start with different letters are told apart by the first
    of them that matches. *)
Lemma match_any_app (ws : list string) :
  (forall k, In k ws -> k <> EmptyString) ->
  NoDup (map first_upper ws) ->
  forall t r, word_of ws t -> match_any ws (t ++ r) = Some r.
Proof.
  induction ws as [|w ws IH]; intros Hne Hnd t r (k & Hin & Ht).
  - destruct Hin.
  - simpl. destruct Hin as [<- | Hin].
    + now rewrite match_word_app.
    + destruct (match_word w (t ++ r)) as [r'|] eqn:E.
      * exfalso.
        destruct (match_word_first _ _ _ E (Hne w (or_introl eq_refl)))
          as (c & x' & Hx & Hw).
        pose proof (match_word_app k t r Ht) as Ek.
        destruct (match_word_first _ _ _ Ek (Hne k (or_intror Hin)))
          as (c' & x'' & Hx' & Hk).
        rewrite Hx in Hx'. injection Hx' as <- _.
        inversion Hnd as [|? ? Hnotin _]. subst. apply Hnotin.
        rewrite Hw, <- Hk. now apply in_map.
      * apply IH.
        -- intros k' Hk'. apply Hne. now right.
        -- now inversion Hnd.
        -- now exists k.
Qed.

Lemma word_of_letter (ws : list string) (t : text) :
  Forall (fun k => exists u, first_upper k = Some u /\ is_capital u = true) ws ->
  word_of ws t ->
  exists c t', t = c :: t' /\ sep_start c = false.
Proof.
  intros Hall (k & Hin & Ht).
  rewrite Forall_forall in Hall. destruct (Hall k Hin) as (u & Hu & Hcap).
  destruct k as [|a k]; [discriminate|]. simpl in Hu. injection Hu as <-.
  destruct t as [|c t]; [discriminate|]. simpl in Ht. injection Ht as Hc _.
  exists c, t. split; [reflexivity|].
  apply letter_not_sep_start. now rewrite Hc.
Qed.

Lemma KEYWORDS_letters :
  Forall (fun k => exists u, first_upper k = Some u /\ is_capital u = true) KEYWORDS.
Proof. repeat constructor; eexists; split; reflexivity. Qed.

Lemma WORK_WORDS_letters :
  Forall (fun k => exists u, first_upper k = Some u /\ is_capital u = true) WORK_WORDS.
Proof. repeat constructor; eexists; split; reflexivity. Qed.

Lemma KEYWORDS_apart :
  (forall k, In k KEYWORDS -> k <> EmptyString)
  /\ NoDup (map first_upper KEYWORDS).
Proof.
  split.
  - intros k Hin. simpl in Hin.
    destruct Hin as [<- | [<- | [<- | [<- | []]]]]; discriminate.
  - repeat constructor; simpl; intros H;
      repeat (destruct H as [H | H]; [discriminate|]); exact H.
Qed.

Lemma WORK_WORDS_apart :
  (forall k, In k WORK_WORDS -> k <> EmptyString)
  /\ NoDup (map first_upper WORK_WORDS).
Proof.
  split.
  - intros k Hin. simpl in Hin. destruct Hin as [<- | [<- | []]]; discriminate.
  - repeat constructor; simpl; intros H;
      repeat (destruct H as [H | H]; [discriminate|]); exact H.
Qed.

(** *** Positions *)


Lemma last_char_cons (c : ascii) (t : text) :
  last_char (c :: t) = after (Some c) t.
Proof.
  unfold after, last_char. simpl. destruct (rev t); reflexivity.
Qed.

Lemma after_cons (prev : option ascii) (c : ascii) (t : text) :
  after prev (c :: t) = after (Some c) t.
Proof.
  unfold after at 1. rewrite last_char_cons.
  unfold after. destruct (last_char t); reflexivity.
Qed.

Lemma after_nil (prev : option ascii) : after prev [] = prev.
Proof. reflexivity. Qed.

Lemma after_none (t : text) : after None t = last_char t.
Proof. unfold after. destruct (last_char t); reflexivity. Qed.

Lemma after_app (prev : option ascii) (a b : text) :
  after prev (a ++ b) = after (after prev a) b.
Proof.
  revert prev. induction a as [|c a IH]; intros prev; simpl.
  - reflexivity.
  - now rewrite !after_cons, IH.
Qed.

(** *** The scanner finds exactly the described escapes *)

Section EscapeFacts.

Variable read : text -> option text.
Variable boundary : option ascii -> bool.

Hypothesis read_app : forall t r, read t = Some [] -> read (t ++ r) = Some r.
Hypothesis read_split :
  forall x r, read x = Some r -> exists t, x = t ++ r /\ read t = Some [].

Let comment : text -> Prop := comment_of read.

Lemma word_stops_run (ws : list string) (w f : text) :
  Forall (fun k => exists u, first_upper k = Some u /\ is_capital u = true) ws ->
  word_of ws w -> sep_token read (w ++ f) = None.
Proof.
  intros Hall Hw. destruct (word_of_letter ws w Hall Hw) as (c & t & -> & Hc).
  now apply sep_token_needs_start.
Qed.

Lemma match_escape_sound (s : text) :
  match_escape read s = true ->
  exists body post, s = body ++ post /\ escape comment body post.
Proof.
  unfold match_escape.
  destruct (skip_seps_split read read_split (List.length s) s) as (a & Hs & Ha).
  destruct (match_any KEYWORDS (skip_seps read (List.length s) s)) as [s2|] eqn:Ek;
    [|discriminate].
  destruct (match_any_split _ _ _ Ek) as (kw & Hs1 & Hkw).
  rewrite Hs1 in Ha, Hs. clear Hs1 Ek.
  intros H. apply orb_true_iff in H. destruct H as [H | H].
  - destruct (ends_statement_split read read_split _ _ H) as (b & post & -> & Hb).
    exists (a ++ kw ++ [] ++ b ++ [";"%char]), post. split.
    + rewrite Hs. repeat rewrite <- app_assoc. reflexivity.
    + exists a, kw, [], b. repeat split; auto.
  - apply andb_true_iff in H. destruct H as [Hlen H].
    destruct (skip_seps_split read read_split (List.length s2) s2) as (c & Hs2 & Hc).
    destruct (match_any WORK_WORDS (skip_seps read (List.length s2) s2))
      as [s4|] eqn:Ew; [|discriminate].
    destruct (match_any_split _ _ _ Ew) as (w & Hs3 & Hw).
    rewrite Hs3 in Hc, Hs2, Hlen. clear Hs3 Ew.
    destruct (ends_statement_split read read_split _ _ H) as (b & post & -> & Hb).
    assert (Hne : c <> []).
    { intros ->. simpl in Hs2. rewrite <- Hs2 in Hlen.
      rewrite Nat.eqb_refl in Hlen. discriminate. }
    exists (a ++ kw ++ (c ++ w) ++ b ++ [";"%char]), post. split.
    + rewrite Hs, Hs2. repeat rewrite <- app_assoc. reflexivity.
    + exists a, kw, (c ++ w), b. split; [reflexivity|].
      split; [|split; [exact Hkw|split; [|exact Hb]]].
      * rewrite Hs2 in Ha. repeat rewrite <- app_assoc. exact Ha.
      * right. exists c, w. repeat split; auto.
Qed.

Lemma match_escape_complete (body post : text) :
  escape comment body post -> match_escape read (body ++ post) = true.
Proof.
  intros (s1 & kw & opt & s2 & -> & Hs1 & Hkw & Hopt & Hs2).
  unfold match_escape.
  replace ((s1 ++ kw ++ opt ++ s2 ++ [";"%char]) ++ post)
    with (s1 ++ kw ++ opt ++ s2 ++ ";"%char :: post)
    by (repeat rewrite <- app_assoc; reflexivity).
  rewrite (skip_seps_run read read_app _ _ Hs1
             (word_stops_run _ _ _ KEYWORDS_letters Hkw) _ (Nat.le_refl _)).
  rewrite (match_any_app _ (proj1 KEYWORDS_apart) (proj2 KEYWORDS_apart) _ _ Hkw).
  apply orb_true_iff.
  destruct Hopt as [-> | (s & w & -> & Hne & Hs & Hw)].
  - left. simpl. now apply ends_statement_run.
  - right. rewrite <- app_assoc.
    rewrite (skip_seps_run read read_app _ _ Hs
               (word_stops_run _ _ _ WORK_WORDS_letters Hw) _ (Nat.le_refl _)).
    rewrite (match_any_app _ (proj1 WORK_WORDS_apart) (proj2 WORK_WORDS_apart) _ _ Hw).
    apply andb_true_iff. split.
    + apply negb_true_iff, Nat.eqb_neq. rewrite (length_app s).
      destruct s; [congruence | simpl; lia].
    + now apply ends_statement_run.
Qed.

Lemma scan_from_iff (s : text) :
  forall prev,
    scan_from read boundary prev s = true <->
    exists pre rest, s = pre ++ rest
                     /\ boundary (after prev pre) = true
                     /\ match_escape read rest = true.
Proof.
  induction s as [|c s IH]; intros prev; simpl.
  - rewrite orb_false_r, andb_true_iff. split.
    + intros [Hb Hm]. now exists [], [].
    + intros (pre & rest & Hs & Hb & Hm).
      symmetry in Hs. apply app_eq_nil in Hs. destruct Hs as [-> ->].
      now split.
  - rewrite orb_true_iff, andb_true_iff, IH. split.
    + intros [[Hb Hm] | (pre & rest & -> & Hb & Hm)].
      * now exists [], (c :: s).
      * exists (c :: pre), rest. rewrite after_cons. now split.
    + intros (pre & rest & Hs & Hb & Hm). destruct pre as [|a pre].
      * simpl in Hs. subst rest. now left.
      * simpl in Hs. injection Hs as <- ->. right.
        exists pre, rest. rewrite after_cons in Hb. now split.
Qed.

(** The scanner signals exactly the texts that hold a described escape
    at a boundary. *)
Lemma scan_from_described (sql : text) :
  scan_from read boundary None sql = true <-> described comment boundary sql.
Proof.
  rewrite scan_from_iff. unfold described. split.
  - intros (pre & rest & -> & Hb & Hm).
    destruct (match_escape_sound _ Hm) as (body & post & -> & He).
    exists pre, body, post. rewrite after_none in Hb. now split.
  - intros (pre & body & post & -> & Hb & He).
    exists pre, (body ++ post). rewrite after_none. repeat split; auto.
    now apply match_escape_complete.
Qed.

End EscapeFacts.

(** ** The two readers of multi-line comments *)

(** Induction two characters at a time. *)
Lemma text_ind2 (P : text -> Prop) :
  P [] ->
  (forall c, P [c]) ->
  (forall c c2 r, P r -> P (c2 :: r) -> P (c :: c2 :: r)) ->
  forall s, P s.
Proof.
  intros H0 H1 H2 s.
  assert (H : P s /\ forall c, P (c :: s)).
  { induction s as [|a s [IHs IHc]].
    - split; [exact H0 | exact H1].
    - split; [apply IHc|]. intros c. apply H2; [exact IHs | apply IHc]. }
  apply H.
Qed.

Lemma mlc_close_app (t : text) :
  forall d r, mlc_close d t = Some [] -> mlc_close d (t ++ r) = Some r.
Proof.
  induction t as [|c|c c2 t IH2 IH1] using text_ind2; intros d r.
  - discriminate.
  - simpl. destruct (Ascii.eqb c "/"); [discriminate|].
    destruct (Ascii.eqb c "*"); discriminate.
  - cbn [mlc_close app].
    destruct (Ascii.eqb c "/").
    { destruct (Ascii.eqb c2 "*"); apply IH2. }
    destruct (Ascii.eqb c "*").
    { destruct (Ascii.eqb c2 "/"); [|apply IH2].
      destruct d as [|d]; [|apply IH2].
      intros H. injection H as ->. reflexivity. }
    apply (IH1 d r).
Qed.

Lemma mlc_close_split (x : text) :
  forall d r, mlc_close d x = Some r ->
              exists t, x = t ++ r /\ mlc_close d t = Some [].
Proof.
  induction x as [|c|c c2 x IH2 IH1] using text_ind2; intros d r.
  - discriminate.
  - simpl. destruct (Ascii.eqb c "/"); [discriminate|].
    destruct (Ascii.eqb c "*"); discriminate.
  - cbn [mlc_close].
    destruct (Ascii.eqb c "/") eqn:E1.
    { destruct (Ascii.eqb c2 "*") eqn:E2; intros H;
        destruct (IH2 _ _ H) as (t & -> & Ht);
        exists (c :: c2 :: t); (split; [reflexivity|]);
        cbn [mlc_close]; now rewrite E1, E2. }
    destruct (Ascii.eqb c "*") eqn:E2.
    { destruct (Ascii.eqb c2 "/") eqn:E3.
      - destruct d as [|d].
        + intros H. injection H as <-. exists [c; c2]. split; [reflexivity|].
          cbn [mlc_close]. now rewrite E1, E2, E3.
        + intros H. destruct (IH2 _ _ H) as (t & -> & Ht).
          exists (c :: c2 :: t). split; [reflexivity|].
          cbn [mlc_close]. now rewrite E1, E2, E3.
      - intros H. destruct (IH2 _ _ H) as (t & -> & Ht).
        exists (c :: c2 :: t). split; [reflexivity|].
        cbn [mlc_close]. now rewrite E1, E2, E3. }
    intros H. destruct (IH1 _ _ H) as (t & Hx & Ht).
    exists (c :: t). split; [simpl; now rewrite Hx|].
    destruct t as [|a t]; [discriminate|].
    cbn [mlc_close]. rewrite E1, E2. exact Ht.
Qed.

Lemma comment_close_app (t : text) :
  forall d r, comment_close d t = Some [] -> comment_close d (t ++ r) = Some r.
Proof.
  induction t as [|c|c c2 t IH2 IH1] using text_ind2; intros d r.
  - discriminate.
  - discriminate.
  - cbn [comment_close app].
    destruct (Ascii.eqb c "/" && Ascii.eqb c2 "*"); [apply IH2|].
    destruct (Ascii.eqb c "*" && Ascii.eqb c2 "/").
    { destruct d as [|d]; [|apply IH2].
      intros H. injection H as ->. reflexivity. }
    apply (IH1 d r).
Qed.

Lemma comment_close_split (x : text) :
  forall d r, comment_close d x = Some r ->
              exists t, x = t ++ r /\ comment_close d t = Some [].
Proof.
  induction x as [|c|c c2 x IH2 IH1] using text_ind2; intros d r.
  - discriminate.
  - discriminate.
  - cbn [comment_close].
    destruct (Ascii.eqb c "/" && Ascii.eqb c2 "*") eqn:E1.
    { intros H. destruct (IH2 _ _ H) as (t & -> & Ht).
      exists (c :: c2 :: t). split; [reflexivity|].
      cbn [comment_close]. now rewrite E1. }
    destruct (Ascii.eqb c "*" && Ascii.eqb c2 "/") eqn:E2.
    { destruct d as [|d].
      - intros H. injection H as <-. exists [c; c2]. split; [reflexivity|].
        cbn [comment_close]. now rewrite E1, E2.
      - intros H. destruct (IH2 _ _ H) as (t & -> & Ht).
        exists (c :: c2 :: t). split; [reflexivity|].
        cbn [comment_close]. now rewrite E1, E2. }
    intros H. destruct (IH1 _ _ H) as (t & Hx & Ht).
    destruct t as [|a t]; [discriminate|].
    simpl in Hx. injection Hx as <- Hx.
    exists (c :: c2 :: t). split; [simpl; now rewrite Hx|].
    cbn [comment_close]. rewrite E1, E2. exact Ht.
Qed.

Lemma comment_close_ordinary (c : ascii) (d : nat) (r : text) :
  Ascii.eqb c "/" = false -> Ascii.eqb c "*" = false ->
  comment_close d (c :: r) = comment_close d r.
Proof.
  intros H1 H2. destruct r as [|c2 r]; [reflexivity|].
  cbn [comment_close]. now rewrite H1, H2.
Qed.

Lemma mlc_close_step (d : nat) (c c2 : ascii) (r : text) :
  mlc_close d (c :: c2 :: r) =
  if Ascii.eqb c "/" then
    if Ascii.eqb c2 "*" then mlc_close (S d) r else mlc_close d r
  else if Ascii.eqb c "*" then
    if Ascii.eqb c2 "/" then
      match d with
      | 0 => Some r
      | S d' => mlc_close d' r
      end
    else mlc_close d r
  else mlc_close d (c2 :: r).
Proof. reflexivity. Qed.

Lemma comment_close_step (d : nat) (c c2 : ascii) (r : text) :
  comment_close d (c :: c2 :: r) =
  if Ascii.eqb c "/" && Ascii.eqb c2 "*" then comment_close (S d) r
  else if Ascii.eqb c "*" && Ascii.eqb c2 "/" then
    match d with
    | 0 => Some r
    | S d' => comment_close d' r
    end
  else comment_close d (c2 :: r).
Proof. reflexivity. Qed.

(** Where no slash follows a slash and no star follows a star, the
    pattern reads a comment as the depth-counting scanner does. *)
Lemma readers_agree_no_doubles (s : text) :
  no_doubles s = true -> forall d, mlc_close d s = comment_close d s.
Proof.
  induction s as [|c|c c2 s IH2 IH1] using text_ind2; intros Hnd d.
  - reflexivity.
  - simpl. destruct (Ascii.eqb c "/"); [reflexivity|].
    destruct (Ascii.eqb c "*"); reflexivity.
  - cbn [no_doubles] in Hnd. apply andb_true_iff in Hnd.
    destruct Hnd as [Hpair Hrest].
    assert (Hs : no_doubles s = true).
    { cbn [no_doubles] in Hrest. apply andb_true_iff in Hrest. tauto. }
    specialize (IH2 Hs). specialize (IH1 Hrest). clear Hrest.
    rewrite mlc_close_step, comment_close_step.
    destruct (Ascii.eqb c "/") eqn:E1; destruct (Ascii.eqb c2 "*") eqn:E2;
      destruct (Ascii.eqb c "*") eqn:E3; destruct (Ascii.eqb c2 "/") eqn:E4;
      cbn [andb orb negb] in *; try discriminate; auto;
      try (apply ascii_eqb_true in E1; apply ascii_eqb_true in E3; congruence);
      try (apply ascii_eqb_true in E2; apply ascii_eqb_true in E4; congruence);
      try (destruct d; now auto);
      rewrite IH2; symmetry; now apply comment_close_ordinary.
Qed.

Lemma text_eqb_eq (a b : text) : text_eqb a b = true <-> a = b.
Proof.
  revert b. induction a as [|x a IH]; intros [|y b]; simpl;
    try (split; [discriminate | discriminate || congruence]).
  - tauto.
  - rewrite andb_true_iff, IH, Ascii.eqb_eq. split.
    + intros [-> ->]. reflexivity.
    + intros H. injection H as -> ->. now split.
Qed.

Lemma same_comments_tail (c : ascii) (r : text) :
  same_comments (c :: r) = true -> same_comments r = true.
Proof.
  cbn [same_comments]. intros H. apply andb_true_iff in H. tauto.
Qed.

Lemma same_comments_suffix (t r : text) :
  same_comments (t ++ r) = true -> same_comments r = true.
Proof.
  induction t as [|c t IH]; simpl app; [trivial|].
  intros H. apply IH. now apply same_comments_tail in H.
Qed.

Lemma same_comments_read (r : text) :
  same_comments ("/"%char :: "*"%char :: r) = true ->
  mlc_close 0 r = comment_close 0 r.
Proof.
  cbn [same_comments]. intros H. apply andb_true_iff in H. destruct H as [H _].
  change (Ascii.eqb "/" "/" && Ascii.eqb "*" "*") with true in H. cbv iota in H.
  destruct (mlc_close 0 r) as [a|], (comment_close 0 r) as [b|];
    try discriminate; [|reflexivity].
  apply text_eqb_eq in H. now subst.
Qed.

Lemma no_doubles_tail (c : ascii) (r : text) :
  no_doubles (c :: r) = true -> no_doubles r = true.
Proof.
  cbn [no_doubles]. intros H. apply andb_true_iff in H. tauto.
Qed.

Lemma no_doubles_same_comments (s : text) :
  no_doubles s = true -> same_comments s = true.
Proof.
  induction s as [|c s IH]; [reflexivity|]. intros H.
  pose proof (no_doubles_tail _ _ H) as Hs.
  cbn [same_comments]. rewrite (IH Hs), andb_true_r.
  destruct s as [|c2 s]; [reflexivity|].
  destruct (Ascii.eqb c "/" && Ascii.eqb c2 "*"); [|reflexivity].
  rewrite (readers_agree_no_doubles s (no_doubles_tail _ _ Hs) 0).
  destruct (comment_close 0 s) as [a|]; [|reflexivity].
  now apply text_eqb_eq.
Qed.

Lemma no_doubles_same_comments_witness :
  same_comments (list_ascii_of_string "SELECT 1 /* a /* b */ c */; END;") = true.
Proof.
  apply no_doubles_same_comments. reflexivity.
Defined.

(** On a text where the two readers agree, the scanner of the pattern and
    the scanner with the depth-counting reader go the same way. *)
Section Agreement.

Variable boundary : option ascii -> bool.

Let rd1 := mlc_close 0.
Let rd2 := comment_close 0.

Lemma sep_token_agree (x : text) :
  same_comments x = true -> sep_token rd1 x = sep_token rd2 x.
Proof.
  intros H. destruct x as [|c x]; [reflexivity|]. cbn [sep_token].
  destruct (Ascii.eqb c "-"); [reflexivity|].
  destruct (Ascii.eqb c "/") eqn:E1; [|reflexivity].
  destruct x as [|c2 x]; [reflexivity|].
  destruct (Ascii.eqb c2 "*") eqn:E2; [|reflexivity].
  apply ascii_eqb_true in E1, E2. subst c c2.
  now apply same_comments_read.
Qed.

Lemma sep_token_suffix (x r : text) :
  sep_token rd2 x = Some r -> exists t, x = t ++ r.
Proof.
  intros H.
  destruct (sep_token_separator rd2 (fun x r => comment_close_split x 0 r) _ _ H)
    as (t & Hx & _).
  now exists t.
Qed.

Lemma skip_seps_agree (fuel : nat) :
  forall x, same_comments x = true -> skip_seps rd1 fuel x = skip_seps rd2 fuel x.
Proof.
  induction fuel as [|fuel IH]; intros x H; [reflexivity|].
  cbn [skip_seps]. rewrite (sep_token_agree x H).
  destruct (sep_token rd2 x) as [r|] eqn:E; [|reflexivity].
  apply IH. destruct (sep_token_suffix _ _ E) as (t & ->).
  now apply same_comments_suffix in H.
Qed.

Lemma ends_statement_agree (fuel : nat) :
  forall x, same_comments x = true ->
            ends_statement rd1 fuel x = ends_statement rd2 fuel x.
Proof.
  induction fuel as [|fuel IH]; intros x H; destruct x as [|c x];
    try reflexivity.
  cbn [ends_statement]. destruct (Ascii.eqb c ";"); [reflexivity|].
  rewrite (sep_token_agree _ H).
  destruct (sep_token rd2 (c :: x)) as [r|] eqn:E; [|reflexivity].
  apply IH. destruct (sep_token_suffix _ _ E) as (t & Hx).
  rewrite Hx in H. now apply same_comments_suffix in H.
Qed.

Lemma skip_seps_suffix (fuel : nat) (x : text) :
  same_comments x = true -> same_comments (skip_seps rd2 fuel x) = true.
Proof.
  intros H.
  destruct (skip_seps_split rd2 (fun x r => comment_close_split x 0 r) fuel x)
    as (s & Hx & _).
  rewrite Hx in H. now apply same_comments_suffix in H.
Qed.

Lemma match_any_suffix (ws : list string) (x r : text) :
  match_any ws x = Some r -> same_comments x = true -> same_comments r = true.
Proof.
  intros E H. destruct (match_any_split _ _ _ E) as (t & -> & _).
  now apply same_comments_suffix in H.
Qed.

Lemma match_escape_agree (s : text) :
  same_comments s = true -> match_escape rd1 s = match_escape rd2 s.
Proof.
  intros H. unfold match_escape.
  rewrite (skip_seps_agree _ s H).
  pose proof (skip_seps_suffix (List.length s) s H) as H1.
  destruct (match_any KEYWORDS (skip_seps rd2 (List.length s) s)) as [s2|] eqn:Ek;
    [|reflexivity].
  pose proof (match_any_suffix _ _ _ Ek H1) as H2.
  rewrite (ends_statement_agree _ s2 H2), (skip_seps_agree _ s2 H2).
  pose proof (skip_seps_suffix (List.length s2) s2 H2) as H3.
  destruct (match_any WORK_WORDS (skip_seps rd2 (List.length s2) s2))
    as [s4|] eqn:Ew; [|reflexivity].
  now rewrite (ends_statement_agree _ s4 (match_any_suffix _ _ _ Ew H3)).
Qed.

Lemma scan_from_agree (s : text) :
  forall prev, same_comments s = true ->
               scan_from rd1 boundary prev s = scan_from rd2 boundary prev s.
Proof.
  induction s as [|c s IH]; intros prev H; cbn [scan_from];
    rewrite (match_escape_agree _ H); [reflexivity|].
  now rewrite (IH _ (same_comments_tail _ _ H)).
Qed.

End Agreement.

(** The scanner with the depth-counting reader finds exactly the escapes
    written with balanced comments. *)
Lemma reference_scan_described (boundary : option ascii -> bool) (sql : text) :
  scan_from (comment_close 0) boundary None sql = true
  <-> described balanced_comment boundary sql.
Proof.
  apply scan_from_described.
  - intros t r. apply comment_close_app.
  - intros x r. apply comment_close_split.
Qed.

(** The scanner of the pattern finds exactly the escapes written with
    the comments [re_mlc] reads. *)
Lemma suspicious_scan_described (sql : text) :
  suspicious_scan sql = true <-> described regex_comment line_boundary sql.
Proof.
  apply scan_from_described.
  - intros t r. apply mlc_close_app.
  - intros x r. apply mlc_close_split.
Qed.

Lemma check_for_suspicious_sql_raises (sql : string) :
  (exists e, check_for_suspicious_sql sql = Raise e)
  <-> suspicious_scan (list_ascii_of_string sql) = true.
Proof.
  unfold check_for_suspicious_sql.
  destruct (suspicious_scan (list_ascii_of_string sql)); split; eauto.
  - intros (e & H). discriminate.
  - discriminate.
Qed.

(** ** check_for_suspicious_sql *)

(** C3, as the code has it.  On a text whose multi-line comments the
    pattern reads as the depth-counting scanner does,
    [check_for_suspicious_sql] raises if and only if the text holds, at
    the start of the text, at the start of a line or right after a
    semicolon, a run of separators (single-line comments up to the end of
    the line, balanced multi-line comments, whitespace, semicolons), one of
    END, COMMIT, ROLLBACK, ABORT in any case, optionally a non-empty run
    of separators and WORK or TRANSACTION, then a run of separators and a
    semicolon; what it raises is the fixed text followed by the input, and
    otherwise it returns [True]. *)
Theorem check_for_suspicious_sql_signals_iff_escape (sql : string) :
  same_comments (list_ascii_of_string sql) = true ->
  ((exists e, check_for_suspicious_sql sql = Raise e)
   <-> described balanced_comment line_boundary (list_ascii_of_string sql))
  /\ (described balanced_comment line_boundary (list_ascii_of_string sql) ->
      check_for_suspicious_sql sql =
        Raise (Exn Exception
                 ("SQL contains suspicious patterns, execution rejected: " ++ sql)%string))
  /\ (~ described balanced_comment line_boundary (list_ascii_of_string sql) ->
      check_for_suspicious_sql sql = Return true).
Proof.
  intros Hsame.
  rewrite <- reference_scan_described, <- (scan_from_agree _ _ _ Hsame).
  change (scan_from (mlc_close 0) line_boundary None (list_ascii_of_string sql))
    with (suspicious_scan (list_ascii_of_string sql)).
  rewrite check_for_suspicious_sql_raises.
  unfold check_for_suspicious_sql.
  destruct (suspicious_scan (list_ascii_of_string sql)).
  - repeat split; auto. intros H. now destruct H.
  - repeat split; auto. discriminate.
Qed.

Lemma check_for_suspicious_sql_signals_iff_escape_witness :
  described balanced_comment line_boundary
    (list_ascii_of_string "SELECT 1; /* a /* b */ c */ commit -- x
 work /* d */ ; DROP TABLE t;").
Proof.
  apply (proj1 (check_for_suspicious_sql_signals_iff_escape
                  "SELECT 1; /* a /* b */ c */ commit -- x
 work /* d */ ; DROP TABLE t;" eq_refl)).
  eexists. reflexivity.
Defined.

(** C3, as the specification words it, fails: END at the start of a
    second line is neither at the start of the text nor right after a
    semicolon, and the guard signals it. *)
Lemma check_for_suspicious_sql_line_start_counterexample :
  (exists e, check_for_suspicious_sql "SELECT 1
END;" = Raise e)
  /\ ~ described balanced_comment text_boundary (list_ascii_of_string "SELECT 1
END;").
Proof.
  split.
  - eexists. reflexivity.
  - intros H. apply reference_scan_described in H. discriminate.
Qed.

(** C5, on the code.  [/* /***/ */] is a balanced nested comment, and the
    text [/* /***/ */END;] holds an escape at the start of the text; the
    guard does not signal it.  [/*//*/] is not balanced ([//*] opens a
    second comment that is never closed), and the guard signals
    [/*//*/END;] although the text holds no escape.  Both come from the
    alternatives [\/[^\*]] and [\*[^\/]] of [re_mlc], which read two
    characters at a time. *)
Theorem check_for_suspicious_sql_star_run_comment :
  balanced_comment (list_ascii_of_string "/* /***/ */")
  /\ described balanced_comment text_boundary (list_ascii_of_string "/* /***/ */END;")
  /\ check_for_suspicious_sql "/* /***/ */END;" = Return true
  /\ ~ balanced_comment (list_ascii_of_string "/*//*/")
  /\ ~ described balanced_comment line_boundary (list_ascii_of_string "/*//*/END;")
  /\ exists e, check_for_suspicious_sql "/*//*/END;" = Raise e.
Proof.
  split; [|split; [|split; [|split; [|split]]]].
  - eexists. split; reflexivity.
  - apply reference_scan_described. reflexivity.
  - reflexivity.
  - intros (body & Hb & Hc). injection Hb as <-. discriminate.
  - intros H. apply reference_scan_described in H. discriminate.
  - eexists. reflexivity.
Qed.

(** A balanced comment, nested or not, in which no slash follows a slash
    and no star follows a star is read as one separator: in front of a
    keyword and its semicolon, or between them, the guard signals. *)
Theorem check_for_suspicious_sql_plain_nested_comment (t kw : string) :
  balanced_comment (list_ascii_of_string t) ->
  no_doubles (list_ascii_of_string t) = true ->
  word_of KEYWORDS (list_ascii_of_string kw) ->
  (exists e, check_for_suspicious_sql (t ++ kw ++ ";") = Raise e)
  /\ (exists e, check_for_suspicious_sql (kw ++ t ++ ";") = Raise e).
Proof.
  intros (body & Ht & Hb) Hnd Hkw.
  assert (Hc : regex_comment (list_ascii_of_string t)).
  { exists body. split; [exact Ht|].
    rewrite Ht in Hnd. apply no_doubles_tail, no_doubles_tail in Hnd.
    now rewrite readers_agree_no_doubles. }
  assert (Happ : forall a b, list_ascii_of_string (a ++ b)
                             = list_ascii_of_string a ++ list_ascii_of_string b).
  { induction a as [|c a IH]; intros b; simpl; [reflexivity | now rewrite IH]. }
  split; apply check_for_suspicious_sql_raises, suspicious_scan_described;
    rewrite !Happ; set (T := list_ascii_of_string t);
    set (K := list_ascii_of_string kw); simpl (list_ascii_of_string ";").
  - exists [], (T ++ K ++ [] ++ [] ++ [";"%char]), []. split.
    { simpl. now rewrite !app_nil_r. }
    split; [reflexivity|].
    exists T, K, [], []. repeat split; auto; try constructor.
    rewrite <- (app_nil_r T) at 1. constructor; [|constructor].
    now apply sep_block_comment.
  - exists [], ([] ++ K ++ [] ++ T ++ [";"%char]), []. split.
    { simpl. now rewrite !app_nil_r. }
    split; [reflexivity|].
    exists [], K, [], T. repeat split; auto; try constructor.
    rewrite <- (app_nil_r T) at 1. constructor; [|constructor].
    now apply sep_block_comment.
Qed.

Lemma check_for_suspicious_sql_plain_nested_comment_witness :
  (exists e, check_for_suspicious_sql "/* /* */ */END;" = Raise e)
  /\ (exists e, check_for_suspicious_sql "END/* /* */ */;" = Raise e).
Proof.
  apply (check_for_suspicious_sql_plain_nested_comment "/* /* */ */" "END").
  - eexists. split; reflexivity.
  - reflexivity.
  - exists "END"%string. split; [now left | reflexivity].
Defined.

(** ** The pattern and its scanner *)

Ltac inv H := inversion H; subst; clear H.

(** Symbols of the pattern match themselves only. *)
Lemma same_letter_symbol (x : ascii) :
  (same_letter "-" x = true -> x = "-"%char)
  /\ (same_letter "/" x = true -> x = "/"%char)
  /\ (same_letter "*" x = true -> x = "*"%char)
  /\ (same_letter ";" x = true -> x = ";"%char).
Proof.
  destruct x as [[] [] [] [] [] [] [] []]; vm_compute; repeat split; congruence.
Qed.



Section RegexFacts.

Variable P : regex.

(** A match reads a prefix of what is left, and the character before the
    new position is the last one read. *)
Lemma matches_consumes (r : regex) (k k' : cursor) :
  matches P r k k' ->
  exists t, snd k = t ++ snd k' /\ fst k' = after (fst k) t.
Proof.
  intros H. induction H; simpl;
    try (exists []; split; reflexivity);
    try (exists [x]; split; reflexivity);
    try assumption.
  - destruct IHmatches1 as (t1 & E1 & A1), IHmatches2 as (t2 & E2 & A2).
    exists (t1 ++ t2). rewrite <- app_assoc, <- E2, after_app, <- A1. now split.
  - destruct IHmatches1 as (t1 & E1 & A1), IHmatches2 as (t2 & E2 & A2).
    exists (t1 ++ t2). rewrite <- app_assoc, <- E2, after_app, <- A1. now split.
Qed.

Lemma matches_shorter (r : regex) (p p' : option ascii) (s s' : text) :
  matches P r (p, s) (p', s') -> List.length s' <= List.length s.
Proof.
  intros H. apply matches_consumes in H. destruct H as (t & E & _).
  simpl in E. rewrite E, length_app. lia.
Qed.

(** Induction over the turns of a star. *)
Lemma matches_star_ind (a : regex) (Q : cursor -> cursor -> Prop) :
  (forall k, Q k k) ->
  (forall k k' k'', matches P a k k' -> matches P (Star a) k' k'' ->
                    Q k' k'' -> Q k k'') ->
  forall k k', matches P (Star a) k k' -> Q k k'.
Proof.
  intros Hstop Hstep k k' H. remember (Star a) as r eqn:Hr.
  induction H; try discriminate; injection Hr as ->.
  - apply Hstop.
  - eapply Hstep; eauto.
Qed.

(** Reading a derivation backwards. *)
Lemma matches_eps_inv (k k' : cursor) : matches P Eps k k' -> k' = k.
Proof. intros H. now inv H. Qed.

Lemma matches_chr_inv (c : ascii) (p : option ascii) (s : text) (k' : cursor) :
  matches P (Chr c) (p, s) k' ->
  exists x s', s = x :: s' /\ same_letter c x = true /\ k' = (Some x, s').
Proof. intros H. inv H. eauto. Qed.

Lemma matches_notin_inv (cs : list ascii) (p : option ascii) (s : text) (k' : cursor) :
  matches P (NotIn cs) (p, s) k' ->
  exists x s', s = x :: s' /\ mem_char x cs = false /\ k' = (Some x, s').
Proof. intros H. inv H. eauto. Qed.

Lemma matches_dot_inv (p : option ascii) (s : text) (k' : cursor) :
  matches P Dot (p, s) k' ->
  exists x s', s = x :: s' /\ x <> LF /\ k' = (Some x, s').
Proof. intros H. inv H. eauto. Qed.

Lemma matches_space_inv (p : option ascii) (s : text) (k' : cursor) :
  matches P Space (p, s) k' ->
  exists x s', s = x :: s' /\ re_space x = true /\ k' = (Some x, s').
Proof. intros H. inv H. eauto. Qed.

Lemma matches_bol_inv (p : option ascii) (s : text) (k' : cursor) :
  matches P Bol (p, s) k' -> k' = (p, s) /\ (p = None \/ p = Some LF).
Proof. intros H. inv H; auto. Qed.

Lemma matches_eol_inv (p : option ascii) (s : text) (k' : cursor) :
  matches P Eol (p, s) k' ->
  k' = (p, s) /\ (s = [] \/ exists f, s = LF :: f).
Proof. intros H. inv H; eauto. Qed.

Lemma matches_seq_inv (a b : regex) (k k'' : cursor) :
  matches P (Seq a b) k k'' ->
  exists k', matches P a k k' /\ matches P b k' k''.
Proof. intros H. inv H. eauto. Qed.

Lemma matches_alt_inv (a b : regex) (k k' : cursor) :
  matches P (Alt a b) k k' -> matches P a k k' \/ matches P b k k'.
Proof. intros H. inv H; auto. Qed.

Lemma matches_group_inv (g : nat) (a : regex) (k k' : cursor) :
  matches P (Group g a) k k' -> matches P a k k'.
Proof. intros H. now inv H. Qed.

Lemma matches_call_inv (g : nat) (k k' : cursor) :
  matches P (Call g) k k' ->
  exists a, find_group g P = Some a /\ matches P a k k'.
Proof. intros H. inv H. eauto. Qed.

(** A run of literal characters is read as [match_word] reads it. *)
Lemma matches_lit (w : string) :
  forall p s k', matches P (lit w) (p, s) k' -> match_word w s = Some (snd k').
Proof.
  induction w as [|c w IH]; intros p s k' H; simpl in *.
  - apply matches_eps_inv in H. now subst.
  - apply matches_seq_inv in H. destruct H as (k1 & H1 & H2).
    apply matches_chr_inv in H1. destruct H1 as (x & s' & -> & E & ->).
    rewrite E. eapply IH. eassumption.
Qed.

Lemma lit_matches (w : string) :
  forall p s r, match_word w s = Some r ->
                exists p', matches P (lit w) (p, s) (p', r).
Proof.
  induction w as [|c w IH]; intros p s r; simpl.
  - intros H. injection H as <-. exists p. constructor.
  - destruct s as [|x s]; [discriminate|].
    destruct (same_letter c x) eqn:E; [|discriminate].
    intros H. destruct (IH (Some x) _ _ H) as (p' & Hm).
    exists p'. econstructor; [now constructor | exact Hm].
Qed.

End RegexFacts.

Lemma match_word_pair (a b : ascii) (s r : text) :
  (forall x, same_letter a x = true -> x = a) ->
  (forall x, same_letter b x = true -> x = b) ->
  match_word (String a (String b EmptyString)) s = Some r ->
  s = a :: b :: r.
Proof.
  intros Ha Hb. simpl. destruct s as [|x [|y s]]; try discriminate.
  - destruct (same_letter a x); discriminate.
  - destruct (same_letter a x) eqn:E1; [|discriminate].
    destruct (same_letter b y) eqn:E2; [|discriminate].
    intros H. injection H as <-. now rewrite (Ha x E1), (Hb y E2).
Qed.

Lemma match_word_open (s r : text) :
  match_word "/*" s = Some r -> s = "/"%char :: "*"%char :: r.
Proof.
  apply match_word_pair; intros x; apply (same_letter_symbol x).
Qed.

Lemma match_word_shut (s r : text) :
  match_word "*/" s = Some r -> s = "*"%char :: "/"%char :: r.
Proof.
  apply match_word_pair; intros x; apply (same_letter_symbol x).
Qed.

Lemma match_word_dashes (s r : text) :
  match_word "--" s = Some r -> s = "-"%char :: "-"%char :: r.
Proof.
  apply match_word_pair; intros x; apply (same_letter_symbol x).
Qed.

Lemma mlc_close_shut (d : nat) (r : text) :
  mlc_close d ("*"%char :: "/"%char :: r) = resume d r.
Proof. destruct d; reflexivity. Qed.

Section CommentFacts.

Variable P : regex.
Variable g : nat.
Hypothesis Hg : find_group g P = Some (mlc_body g).

Lemma lit_pair (a b : ascii) (p : option ascii) (s : text) :
  matches P (lit (String a (String b EmptyString))) (p, a :: b :: s) (Some b, s).
Proof.
  simpl. eapply m_seq; [apply m_chr; apply Ascii.eqb_refl|].
  eapply m_seq; [apply m_chr; apply Ascii.eqb_refl | apply m_eps].
Qed.

(** From a derivation to the scanner. *)

Lemma star_items (n : nat) :
  items_below P g n ->
  forall k k', matches P (Star (mlc_item g)) k k' ->
               List.length (snd k) < n ->
               forall d, mlc_close d (snd k) = mlc_close d (snd k').
Proof.
  intros HI.
  apply (matches_star_ind P (mlc_item g)
           (fun k k' => List.length (snd k) < n ->
                        forall d, mlc_close d (snd k) = mlc_close d (snd k'))).
  - reflexivity.
  - intros [p s] [p1 s1] k'' Hitem Hstar IH Hlen d. simpl in *.
    rewrite (HI p s (p1, s1) Hlen Hitem d). simpl. apply IH.
    apply matches_shorter in Hitem. lia.
Qed.

Lemma body_from_items (n : nat) : items_below P g n -> bodies_upto P g n.
Proof.
  intros HI p s k' Hlen H. unfold mlc_body in H.
  apply matches_seq_inv in H. destruct H as ([p1 s1] & Hopen & H).
  apply matches_seq_inv in H. destruct H as ([p2 s2] & Hstar & Hshut).
  apply matches_lit, match_word_open in Hopen. simpl in Hopen. subst s.
  apply matches_lit, match_word_shut in Hshut. subst s2.
  exists s1. split; [reflexivity|]. intros d.
  rewrite (star_items n HI _ _ Hstar); simpl in *; [|lia].
  apply mlc_close_shut.
Qed.

Lemma items_from_body (n : nat) : bodies_upto P g n -> items_below P g (S n).
Proof.
  intros HB p s k' Hlen H d. unfold mlc_item in H.
  apply matches_alt_inv in H. destruct H as [H | H].
  { apply matches_notin_inv in H. destruct H as (x & s' & -> & Hx & ->).
    simpl in Hx. apply orb_false_iff in Hx. destruct Hx as [E1 Hx].
    apply orb_false_iff in Hx. destruct Hx as [E2 _].
    simpl. now rewrite E1, E2. }
  apply matches_alt_inv in H. destruct H as [H | H].
  { apply matches_seq_inv in H. destruct H as (k1 & H1 & H2).
    apply matches_chr_inv in H1. destruct H1 as (x & s1 & -> & Hx & ->).
    apply (same_letter_symbol x) in Hx. subst x.
    apply matches_notin_inv in H2. destruct H2 as (y & s2 & -> & Hy & ->).
    simpl in Hy. apply orb_false_iff in Hy. destruct Hy as [E _].
    rewrite mlc_close_step. simpl. now rewrite E. }
  apply matches_alt_inv in H. destruct H as [H | H].
  { apply matches_seq_inv in H. destruct H as (k1 & H1 & H2).
    apply matches_chr_inv in H1. destruct H1 as (x & s1 & -> & Hx & ->).
    apply (same_letter_symbol x) in Hx. subst x.
    apply matches_notin_inv in H2. destruct H2 as (y & s2 & -> & Hy & ->).
    simpl in Hy. apply orb_false_iff in Hy. destruct Hy as [E _].
    rewrite mlc_close_step. simpl. now rewrite E. }
  apply matches_call_inv in H. destruct H as (a & Ha & H).
  rewrite Hg in Ha. injection Ha as <-.
  destruct (HB p s k' (proj1 (Nat.lt_succ_r _ _) Hlen) H) as (body & -> & Hb).
  rewrite mlc_close_step. simpl. apply (Hb (S d)).
Qed.

Lemma items_below_all (n : nat) : items_below P g n.
Proof.
  induction n as [|n IH].
  - intros p s k' Hlen. lia.
  - apply items_from_body, body_from_items, IH.
Qed.

Lemma mlc_body_close (p : option ascii) (s : text) (k' : cursor) :
  matches P (mlc_body g) (p, s) k' ->
  exists body, s = "/"%char :: "*"%char :: body
               /\ mlc_close 0 body = Some (snd k').
Proof.
  intros H.
  destruct (body_from_items _ (items_below_all (List.length s)) p s k'
              (Nat.le_refl _) H) as (body & -> & Hb).
  exists body. split; [reflexivity | apply (Hb 0)].
Qed.

(** From the scanner to a derivation. *)
Lemma mlc_close_star (n : nat) :
  forall s d r p,
    List.length s <= n -> mlc_close d s = Some r ->
    exists p1 rest,
      matches P (Star (mlc_item g)) (p, s) (p1, "*"%char :: "/"%char :: rest)
      /\ resume d rest = Some r.
Proof.
  induction n as [|n IH]; intros s d r p Hlen H.
  { destruct s; [discriminate | simpl in Hlen; lia]. }
  destruct s as [|c [|c2 s2]].
  - discriminate.
  - simpl in H. destruct (Ascii.eqb c "/"); [discriminate|].
    destruct (Ascii.eqb c "*"); discriminate.
  - rewrite mlc_close_step in H. simpl in Hlen.
    destruct (Ascii.eqb c "/") eqn:E1.
    { apply ascii_eqb_true in E1. subst c.
      destruct (Ascii.eqb c2 "*") eqn:E2.
      - apply ascii_eqb_true in E2. subst c2.
        destruct (IH s2 (S d) r (Some "*"%char) ltac:(lia) H)
          as (p1 & rest1 & Hstar1 & Hres1).
        pose proof Hstar1 as Hshort. apply matches_shorter in Hshort.
        simpl in Hshort.
        destruct (IH rest1 d r (Some "/"%char) ltac:(lia) Hres1)
          as (p2 & rest & Hstar2 & Hres2).
        exists p2, rest. split; [|exact Hres2].
        eapply m_star_step; [|exact Hstar2].
        apply m_alt_r, m_alt_r, m_alt_r. eapply m_call; [exact Hg|].
        unfold mlc_body. eapply m_seq; [apply lit_pair|].
        eapply m_seq; [exact Hstar1 | apply lit_pair].
      - destruct (IH s2 d r (Some c2) ltac:(lia) H) as (p1 & rest & Hstar & Hres).
        exists p1, rest. split; [|exact Hres].
        eapply m_star_step; [|exact Hstar].
        apply m_alt_r, m_alt_l. eapply m_seq.
        + apply m_chr. reflexivity.
        + apply m_notin. simpl. now rewrite E2. }
    destruct (Ascii.eqb c "*") eqn:E3.
    { apply ascii_eqb_true in E3. subst c.
      destruct (Ascii.eqb c2 "/") eqn:E4.
      - apply ascii_eqb_true in E4. subst c2.
        exists p, s2. split; [apply m_star_stop | exact H].
      - destruct (IH s2 d r (Some c2) ltac:(lia) H) as (p1 & rest & Hstar & Hres).
        exists p1, rest. split; [|exact Hres].
        eapply m_star_step; [|exact Hstar].
        apply m_alt_r, m_alt_r, m_alt_l. eapply m_seq.
        + apply m_chr. reflexivity.
        + apply m_notin. simpl. now rewrite E4. }
    destruct (IH (c2 :: s2) d r (Some c) ltac:(simpl; lia) H)
      as (p1 & rest & Hstar & Hres).
    exists p1, rest. split; [|exact Hres].
    eapply m_star_step; [|exact Hstar].
    apply m_alt_l, m_notin. simpl. now rewrite E1, E3.
Qed.

(** [re_mlc] matches exactly the comments the scanner reads. *)
Lemma matches_re_mlc (p : option ascii) (s : text) (k' : cursor) :
  matches P (re_mlc g) (p, s) k' ->
  exists t, s = t ++ snd k' /\ regex_comment t.
Proof.
  intros H. apply matches_group_inv in H.
  destruct (mlc_body_close _ _ _ H) as (body & -> & Hb).
  destruct (mlc_close_split _ _ _ Hb) as (t & -> & Ht).
  exists ("/"%char :: "*"%char :: t). split; [reflexivity|]. now exists t.
Qed.

Lemma re_mlc_matches (t f : text) (p : option ascii) :
  regex_comment t -> exists p', matches P (re_mlc g) (p, t ++ f) (p', f).
Proof.
  intros (body & -> & Hb).
  pose proof (mlc_close_app body 0 f Hb) as Hf.
  destruct (mlc_close_star _ _ _ _ (Some "*"%char) (Nat.le_refl _) Hf)
    as (p1 & rest & Hstar & Hres).
  simpl in Hres. injection Hres as ->.
  exists (Some "/"%char). apply m_group. simpl app.
  eapply m_seq; [apply lit_pair|].
  eapply m_seq; [exact Hstar | apply lit_pair].
Qed.

End CommentFacts.

Section SeparatorFacts.

Variable P : regex.
Variable g : nat.
Hypothesis Hg : find_group g P = Some (mlc_body g).

Lemma matches_star_dot (k k' : cursor) :
  matches P (Star Dot) k k' ->
  exists body, snd k = body ++ snd k' /\ ~ In LF body.
Proof.
  revert k k'.
  apply (matches_star_ind P Dot
           (fun k k' => exists body, snd k = body ++ snd k' /\ ~ In LF body)).
  - intros k. exists []. split; [reflexivity | intros []].
  - intros [p s] k1 k2 Hdot _ (body & E & Hno).
    apply matches_dot_inv in Hdot. destruct Hdot as (x & s' & -> & Hx & ->).
    simpl in *. exists (x :: body). split; [now rewrite E|].
    intros [H | H]; [congruence | tauto].
Qed.

Lemma star_dot_matches (body f : text) :
  ~ In LF body ->
  forall p, exists p', matches P (Star Dot) (p, body ++ f) (p', f).
Proof.
  induction body as [|x body IH]; intros Hno p.
  - exists p. apply m_star_stop.
  - destruct (IH (fun H => Hno (or_intror H)) (Some x)) as (p' & Hm).
    exists p'. eapply m_star_step; [|exact Hm].
    apply m_dot. intros ->. apply Hno. now left.
Qed.

Lemma matches_re_slc (p : option ascii) (s : text) (k' : cursor) :
  matches P re_slc (p, s) k' ->
  exists t, s = t ++ snd k' /\ separator regex_comment t (snd k').
Proof.
  intros H. unfold re_slc in H.
  apply matches_seq_inv in H. destruct H as ([p1 s1] & Hdash & H).
  apply matches_seq_inv in H. destruct H as ([p2 s2] & Hdots & Heol).
  apply matches_lit, match_word_dashes in Hdash. simpl in Hdash. subst s.
  apply matches_star_dot in Hdots. destruct Hdots as (body & E & Hno).
  simpl in E. subst s1.
  apply matches_eol_inv in Heol. destruct Heol as (-> & Hend). simpl.
  exists ("-"%char :: "-"%char :: body). split; [reflexivity|].
  now apply sep_line_comment.
Qed.

Lemma matches_re_sp (p : option ascii) (s : text) (k' : cursor) :
  matches P (re_sp g) (p, s) k' ->
  exists t, s = t ++ snd k' /\ separator regex_comment t (snd k').
Proof.
  intros H. unfold re_sp in H.
  apply matches_alt_inv in H. destruct H as [H | H].
  { now apply matches_re_slc in H. }
  apply matches_alt_inv in H. destruct H as [H | H].
  { destruct (matches_re_mlc P g Hg _ _ _ H) as (t & -> & Ht).
    exists t. split; [reflexivity | now apply sep_block_comment]. }
  apply matches_alt_inv in H. destruct H as [H | H].
  - apply matches_space_inv in H. destruct H as (x & s' & -> & Hx & ->).
    exists [x]. split; [reflexivity | now apply sep_whitespace].
  - apply matches_chr_inv in H. destruct H as (x & s' & -> & Hx & ->).
    apply (same_letter_symbol x) in Hx. subst x.
    exists [";"%char]. split; [reflexivity | apply sep_semicolon].
Qed.

Lemma re_sp_matches (t f : text) :
  separator regex_comment t f ->
  forall p, exists p', matches P (re_sp g) (p, t ++ f) (p', f).
Proof.
  intros H p. unfold re_sp.
  destruct H as [body f Hno Hend | t f Hc | c f Hc | f].
  - destruct (star_dot_matches body f Hno (Some "-"%char)) as (p' & Hdots).
    exists p'. apply m_alt_l. unfold re_slc. simpl app.
    eapply m_seq; [apply lit_pair|]. eapply m_seq; [exact Hdots|].
    destruct Hend as [-> | (f' & ->)]; constructor.
  - destruct (re_mlc_matches P g Hg t f p Hc) as (p' & Hm).
    exists p'. now apply m_alt_r, m_alt_l.
  - exists (Some c). apply m_alt_r, m_alt_r, m_alt_l. now apply m_space.
  - exists (Some ";"%char). apply m_alt_r, m_alt_r, m_alt_r.
    apply m_chr. reflexivity.
Qed.

Lemma matches_star_sp (k k' : cursor) :
  matches P (Star (re_sp g)) k k' ->
  exists t, snd k = t ++ snd k' /\ separators regex_comment t (snd k').
Proof.
  revert k k'.
  apply (matches_star_ind P (re_sp g)
           (fun k k' => exists t, snd k = t ++ snd k'
                                  /\ separators regex_comment t (snd k'))).
  - intros k. exists []. split; [reflexivity | constructor].
  - intros [p s] [p1 s1] k2 Hsp _ (ts & E & Hts). simpl in *.
    apply matches_re_sp in Hsp. destruct Hsp as (t & -> & Ht). simpl in *.
    subst s1. exists (t ++ ts). split; [now rewrite app_assoc|].
    now constructor.
Qed.

Lemma star_sp_matches (t f : text) :
  separators regex_comment t f ->
  forall p, exists p', matches P (Star (re_sp g)) (p, t ++ f) (p', f).
Proof.
  intros H. induction H as [f | t ts f Ht Hts IH]; intros p.
  - exists p. apply m_star_stop.
  - destruct (re_sp_matches t (ts ++ f) Ht p) as (p1 & H1).
    destruct (IH p1) as (p' & H2).
    exists p'. rewrite <- app_assoc. eapply m_star_step; eassumption.
Qed.

End SeparatorFacts.

Section EscapePattern.

Variable P : regex.
Hypothesis Hg1 : find_group 1 P = Some (mlc_body 1).
Hypothesis Hg2 : find_group 2 P = Some (mlc_body 2).
Hypothesis Hg3 : find_group 3 P = Some (mlc_body 3).

Lemma matches_word (w : string) (ws : list string) (p : option ascii)
    (s : text) (k' : cursor) :
  In w ws -> matches P (lit w) (p, s) k' ->
  exists t, s = t ++ snd k' /\ word_of ws t.
Proof.
  intros Hin H. apply matches_lit in H.
  destruct (match_word_split _ _ _ H) as (t & -> & Ht).
  exists t. split; [reflexivity|]. now exists w.
Qed.

Lemma matches_re_keyword (p : option ascii) (s : text) (k' : cursor) :
  matches P re_keyword (p, s) k' ->
  exists t, s = t ++ snd k' /\ word_of KEYWORDS t.
Proof.
  intros H. unfold re_keyword in H.
  repeat (apply matches_alt_inv in H; destruct H as [H | H];
          [eapply matches_word; [|exact H]; simpl; tauto|]).
  eapply matches_word; [|exact H]. simpl. tauto.
Qed.

Lemma matches_re_work (p : option ascii) (s : text) (k' : cursor) :
  matches P re_work (p, s) k' ->
  exists t, s = t ++ snd k' /\ word_of WORK_WORDS t.
Proof.
  intros H. unfold re_work in H.
  apply matches_alt_inv in H. destruct H as [H | H];
    (eapply matches_word; [|exact H]); simpl; tauto.
Qed.

Lemma re_keyword_matches (t f : text) (p : option ascii) :
  word_of KEYWORDS t -> exists p', matches P re_keyword (p, t ++ f) (p', f).
Proof.
  intros (k & Hin & Ht). unfold re_keyword.
  destruct (lit_matches P k p _ _ (match_word_app k t f Ht)) as (p' & Hm).
  exists p'. simpl in Hin.
  destruct Hin as [<- | [<- | [<- | [<- | []]]]];
    [apply m_alt_l | apply m_alt_r, m_alt_l | apply m_alt_r, m_alt_r, m_alt_l
     | apply m_alt_r, m_alt_r, m_alt_r]; exact Hm.
Qed.

Lemma re_work_matches (t f : text) (p : option ascii) :
  word_of WORK_WORDS t -> exists p', matches P re_work (p, t ++ f) (p', f).
Proof.
  intros (k & Hin & Ht). unfold re_work.
  destruct (lit_matches P k p _ _ (match_word_app k t f Ht)) as (p' & Hm).
  exists p'. simpl in Hin.
  destruct Hin as [<- | [<- | []]]; [apply m_alt_l | apply m_alt_r]; exact Hm.
Qed.

(** [re_escape] matches exactly the described escapes. *)
Lemma matches_re_escape (p : option ascii) (s : text) (k' : cursor) :
  matches P re_escape (p, s) k' ->
  exists body, s = body ++ snd k' /\ escape regex_comment body (snd k').
Proof.
  intros H. unfold re_escape in H.
  apply matches_seq_inv in H. destruct H as ([p1 x1] & Hs1 & H).
  apply matches_seq_inv in H. destruct H as ([p2 x2] & Hkw & H).
  apply matches_seq_inv in H. destruct H as ([p3 x3] & Hopt & H).
  apply matches_seq_inv in H. destruct H as ([p4 x4] & Hs2 & Hsemi).
  apply (matches_star_sp P 1 Hg1) in Hs1. destruct Hs1 as (s1 & E1 & Hs1).
  apply matches_re_keyword in Hkw. destruct Hkw as (kw & E2 & Hkw).
  apply (matches_star_sp P 3 Hg3) in Hs2. destruct Hs2 as (s2 & E4 & Hs2).
  apply matches_chr_inv in Hsemi. destruct Hsemi as (c & x5 & E5 & Hc & ->).
  apply (same_letter_symbol c) in Hc. simpl in *. subst c x4 x3 x1 s.
  assert (Hopt' : exists opt, x2 = opt ++ s2 ++ ";"%char :: x5
            /\ (opt = []
                \/ exists t w, opt = t ++ w /\ t <> []
                     /\ separators regex_comment t (w ++ s2 ++ ";"%char :: x5)
                     /\ word_of WORK_WORDS w)).
  { unfold Opt in Hopt. apply matches_alt_inv in Hopt. destruct Hopt as [H | H].
    - apply matches_seq_inv in H. destruct H as ([q1 y1] & Hplus & Hw).
      unfold Plus in Hplus.
      apply matches_seq_inv in Hplus. destruct Hplus as ([q0 y0] & Hsp & Hstar).
      apply (matches_re_sp P 2 Hg2) in Hsp. destruct Hsp as (t1 & -> & Ht1).
      apply (matches_star_sp P 2 Hg2) in Hstar. destruct Hstar as (t2 & E & Ht2).
      apply matches_re_work in Hw. destruct Hw as (w & -> & Hw).
      simpl in *. subst y0.
      exists ((t1 ++ t2) ++ w). split; [now rewrite <- !app_assoc|].
      right. exists (t1 ++ t2), w. split; [reflexivity|]. split.
      + pose proof (separator_nonempty _ _ _ Ht1). destruct t1; [congruence|].
        discriminate.
      + split; [|exact Hw]. now constructor.
    - apply matches_eps_inv in H. injection H as _ ->.
      exists []. split; [reflexivity | now left]. }
  destruct Hopt' as (opt & -> & Hopt').
  exists (s1 ++ kw ++ opt ++ s2 ++ [";"%char]). split.
  - now rewrite <- !app_assoc.
  - exists s1, kw, opt, s2. repeat split; auto.
Qed.

Lemma re_escape_matches (body f : text) (p : option ascii) :
  escape regex_comment body f ->
  exists p', matches P re_escape (p, body ++ f) (p', f).
Proof.
  intros (s1 & kw & opt & s2 & -> & Hs1 & Hkw & Hopt & Hs2).
  replace ((s1 ++ kw ++ opt ++ s2 ++ [";"%char]) ++ f)
    with (s1 ++ kw ++ opt ++ s2 ++ ";"%char :: f)
    by (now rewrite <- !app_assoc).
  destruct (star_sp_matches P 1 Hg1 _ _ Hs1 p) as (p1 & H1).
  destruct (re_keyword_matches kw (opt ++ s2 ++ ";"%char :: f) p1 Hkw)
    as (p2 & H2).
  assert (H3 : exists p3,
             matches P (Opt (Seq (Plus (re_sp 2)) re_work))
               (p2, opt ++ s2 ++ ";"%char :: f) (p3, s2 ++ ";"%char :: f)).
  { destruct Hopt as [-> | (t & w & -> & Hne & Ht & Hw)].
    - exists p2. apply m_alt_r, m_eps.
    - rewrite <- app_assoc.
      inversion Ht as [? E1 E2 | t1 ts ? Ht1 Hts E1 E2]; [congruence|].
      subst. rewrite <- app_assoc in *.
      destruct (re_sp_matches P 2 Hg2 _ _ Ht1 p2) as (q0 & Hq0).
      destruct (star_sp_matches P 2 Hg2 _ _ Hts q0) as (q1 & Hq1).
      destruct (re_work_matches w (s2 ++ ";"%char :: f) q1 Hw) as (p3 & Hq2).
      exists p3. apply m_alt_l. eapply m_seq; [|exact Hq2].
      unfold Plus. eapply m_seq; eassumption. }
  destruct H3 as (p3 & H3).
  destruct (star_sp_matches P 3 Hg3 _ _ Hs2 p3) as (p4 & H4).
  exists (Some ";"%char). unfold re_escape.
  eapply m_seq; [exact H1|]. eapply m_seq; [exact H2|].
  eapply m_seq; [exact H3|]. eapply m_seq; [exact H4|].
  apply m_chr. reflexivity.
Qed.

End EscapePattern.

Lemma last_char_app_one (pre : text) (c : ascii) :
  last_char (pre ++ [c]) = Some c.
Proof. unfold last_char. now rewrite rev_app_distr. Qed.

Lemma last_char_some (pre : text) (c : ascii) :
  last_char pre = Some c -> exists pre', pre = pre' ++ [c].
Proof.
  unfold last_char. intros H. destruct (rev pre) as [|x r] eqn:E; [discriminate|].
  injection H as ->. exists (rev r).
  rewrite <- (rev_involutive pre), E. reflexivity.
Qed.

(** The search of [SUSPICIOUS_QUERY_REGEXP] finds exactly the described
    escapes that start at the start of the text, at the start of a line or
    after a semicolon. *)
Lemma regex_search_described (sql : text) :
  regex_search SUSPICIOUS_QUERY_REGEXP sql
  <-> described regex_comment line_boundary sql.
Proof.
  set (P := SUSPICIOUS_QUERY_REGEXP).
  assert (Hg1 : find_group 1 P = Some (mlc_body 1)) by reflexivity.
  assert (Hg2 : find_group 2 P = Some (mlc_body 2)) by reflexivity.
  assert (Hg3 : find_group 3 P = Some (mlc_body 3)) by reflexivity.
  split.
  - intros (pre & rest & k' & -> & H). unfold P at 2 in H.
    unfold SUSPICIOUS_QUERY_REGEXP in H.
    apply matches_seq_inv in H. destruct H as ([p1 x1] & Hstart & Hesc).
    apply (matches_re_escape P Hg1 Hg2 Hg3) in Hesc.
    destruct Hesc as (body & -> & Hesc).
    apply matches_alt_inv in Hstart. destruct Hstart as [H | H].
    + apply matches_bol_inv in H. destruct H as (E & Hp).
      injection E as -> <-.
      exists pre, body, (snd k'). split; [reflexivity|]. split; [|exact Hesc].
      destruct Hp as [-> | ->]; reflexivity.
    + apply matches_chr_inv in H. destruct H as (c & s' & -> & Hc & E).
      apply (same_letter_symbol c) in Hc. subst c. injection E as -> <-.
      exists (pre ++ [";"%char]), body, (snd k'). split.
      * now rewrite <- app_assoc.
      * split; [|exact Hesc]. now rewrite last_char_app_one.
  - intros (pre & body & post & -> & Hb & Hesc).
    unfold line_boundary in Hb.
    destruct (last_char pre) as [c|] eqn:Hlast.
    + apply orb_true_iff in Hb. destruct Hb as [Hc | Hc];
        apply ascii_eqb_true in Hc; subst c.
      * destruct (re_escape_matches P Hg1 Hg2 Hg3 body post (Some LF) Hesc)
          as (p' & Hm).
        exists pre, (body ++ post), (p', post). split; [reflexivity|].
        rewrite Hlast. eapply m_seq; [apply m_alt_l, m_bol_line | exact Hm].
      * destruct (last_char_some _ _ Hlast) as (pre' & ->).
        destruct (re_escape_matches P Hg1 Hg2 Hg3 body post (Some ";"%char) Hesc)
          as (p' & Hm).
        exists pre', (";"%char :: body ++ post), (p', post). split.
        -- now rewrite <- app_assoc.
        -- eapply m_seq; [apply m_alt_r, m_chr; reflexivity | exact Hm].
    + destruct (re_escape_matches P Hg1 Hg2 Hg3 body post None Hesc)
        as (p' & Hm).
      exists pre, (body ++ post), (p', post). split; [reflexivity|].
      rewrite Hlast. eapply m_seq; [apply m_alt_l, m_bol_start | exact Hm].
Qed.

(** The scanner decides the search of the pattern: [suspicious_scan] is
    [True] exactly when [regex.compile(SUSPICIOUS_QUERY_REGEXP).search]
    finds a match. *)
Theorem suspicious_scan_is_regex_search (sql : text) :
  suspicious_scan sql = true <-> regex_search SUSPICIOUS_QUERY_REGEXP sql.
Proof.
  rewrite regex_search_described. apply suspicious_scan_described.
Qed.

(** [check_for_suspicious_sql] raises exactly when the pattern is found
    in the text. *)
Theorem check_for_suspicious_sql_is_regex_search (sql : string) :
  (check_for_suspicious_sql sql =
     Raise (Exn Exception
              ("SQL contains suspicious patterns, execution rejected: " ++ sql)%string)
   <-> regex_search SUSPICIOUS_QUERY_REGEXP (list_ascii_of_string sql))
  /\ (check_for_suspicious_sql sql = Return true
      <-> ~ regex_search SUSPICIOUS_QUERY_REGEXP (list_ascii_of_string sql)).
Proof.
  rewrite <- suspicious_scan_is_regex_search. unfold check_for_suspicious_sql.
  destruct (suspicious_scan (list_ascii_of_string sql)); split; split;
    try reflexivity; try discriminate; try congruence.
Qed.

(** ** The scenarios of the specification, end to end *)

(** Scenario 6: [SELECT 1; END; DROP TABLE x;] is refused by both gates;
    the classifier refuses it first, as several statements, and the
    database is never called. *)
Theorem execute_sql_tool_scenario_escape
    (run_query : string -> result string) (ms : string) :
  execute_sql_tool scenario_parse run_query ms "SELECT 1; END; DROP TABLE x;" =
    ([Validated (Return (false, "Only one SQL statement is allowed at a time."));
      CtxError "Only one SQL statement is allowed at a time."],
     Raise (Exn ValueError "Only one SQL statement is allowed at a time."))
  /\ check_for_suspicious_sql "SELECT 1; END; DROP TABLE x;" =
       Raise (Exn Exception
                "SQL contains suspicious patterns, execution rejected: SELECT 1; END; DROP TABLE x;").
Proof. split; reflexivity. Qed.

(** Scenario 1: [SELECT * FROM users;] passes both gates and reaches the
    database, once. *)
Theorem execute_sql_tool_scenario_select
    (run_query : string -> result string) (ms : string) :
  exists post,
    fst (execute_sql_tool scenario_parse run_query ms "SELECT * FROM users;") =
      [Validated (Return (true, "This is a read-only SQL statement."));
       Scanned (Return true);
       LogInfo "Executing SQL statement: SELECT * FROM users;";
       RunQuery "SELECT * FROM users;"] ++ post
    /\ forall q, ~ In (RunQuery q) post.
Proof.
  apply (execute_sql_tool_runs scenario_parse run_query ms
           "SELECT * FROM users;" "This is a read-only SQL statement.");
    reflexivity.
Qed.

(* ================================================================= *)
(** * Part III. The rest of the code *)
(* ================================================================= *)

(** ** db_utils.py *)

Ltac db_unfold :=
  unfold connect, init, disconnect, getenv, db_bind, db_get, db_put, db_emit,
    db_ret, db_raise in *.

(** A successful [connect] leaves its result in [_instance]. *)
Lemma connect_stores_instance (environ : Environ) (st st' : class_state)
    (tr : list db_event) (inst : RedshiftDB) :
  connect environ st = (tr, st', inr inst) -> _instance st' = Some inst.
Proof.
  db_unfold. destruct (_instance st) as [i|] eqn:Hi.
  - intros H. injection H as _ <- <-. exact Hi.
  - destruct (environ "REDSHIFT_HOST"); [|discriminate].
    destruct (environ "REDSHIFT_USER"); [|discriminate].
    destruct (environ "REDSHIFT_PASSWORD"); [|discriminate].
    destruct (environ "REDSHIFT_DB"); [|discriminate].
    simpl. rewrite Hi. destruct (_executor st); simpl;
      intros H; injection H as _ <- <-; reflexivity.
Qed.

(** [connect] without the variables it needs: the first one missing, in
    the order HOST, USER, PASSWORD, DB, is the [KeyError] raised, and then
    nothing was created and no attribute changed; with the four of them
    [connect] returns an object. *)
Theorem connect_first_missing_variable (environ : Environ) (st : class_state) :
  _instance st = None ->
  match first_missing environ REQUIRED_VARIABLES with
  | Some key => connect environ st = ([], st, inl (KeyError key))
  | None => exists tr st' inst, connect environ st = (tr, st', inr inst)
  end.
Proof.
  intros Hi. db_unfold. rewrite Hi. simpl.
  destruct (environ "REDSHIFT_HOST"); [|reflexivity].
  destruct (environ "REDSHIFT_USER"); [|reflexivity].
  destruct (environ "REDSHIFT_PASSWORD"); [|reflexivity].
  destruct (environ "REDSHIFT_DB"); [|reflexivity].
  simpl. rewrite Hi. destruct (_executor st); simpl; eauto.
Qed.

Lemma connect_first_missing_variable_witness :
  connect (fun name => if String.eqb name "REDSHIFT_HOST" then Some "h" else None)
          fresh_class
  = ([], fresh_class, inl (KeyError "REDSHIFT_USER")).
Proof.
  apply (connect_first_missing_variable
           (fun name => if String.eqb name "REDSHIFT_HOST" then Some "h" else None)
           fresh_class eq_refl).
Defined.

(** The singleton: once [connect] has returned an object, every later
    [connect] returns that same object, whatever the environment then is,
    creating nothing and changing nothing; and the constructor raises. *)
Theorem connect_is_singleton (environ environ' : Environ) (st st' : class_state)
    (tr : list db_event) (inst : RedshiftDB) (e : Engine) (h : string) :
  connect environ st = (tr, st', inr inst) ->
  connect environ' st' = ([], st', inr inst)
  /\ init e h st' =
       ([], st', inl (RuntimeError "RedshiftDB is a singleton class, use connect() method.")).
Proof.
  intros H. apply connect_stores_instance in H.
  db_unfold. rewrite H. split; reflexivity.
Qed.

Lemma connect_is_singleton_witness :
  connect (fun _ => None)
    {| _instance := Some example_instance; _executor := Some (mkPool 3) |}
  = ([], {| _instance := Some example_instance; _executor := Some (mkPool 3) |},
     inr example_instance).
Proof.
  exact (proj1 (connect_is_singleton example_environ (fun _ => None)
                  fresh_class _ _ example_instance (engine example_instance) EmptyString
                  eq_refl)).
Defined.

(** With the four variables set and no object yet, [connect] creates one
    engine, for the URL made of the variables, port 5439 and sslmode
    require, and the pool of three workers if there is none. *)
Lemma connect_creates (environ : Environ) (st : class_state) (h u p d : string) :
  _instance st = None ->
  environ "REDSHIFT_HOST" = Some h ->
  environ "REDSHIFT_USER" = Some u ->
  environ "REDSHIFT_PASSWORD" = Some p ->
  environ "REDSHIFT_DB" = Some d ->
  let url := mkURL "redshift_custom" u p d h 5439%N [("sslmode", "require")] in
  let inst := {| engine := mkEngine url; host := h |} in
  connect environ st =
    (EngineCreated url
       :: match _executor st with
          | None => [ExecutorCreated (mkPool 3)]
          | Some _ => []
          end,
     {| _instance := Some inst;
        _executor := match _executor st with
                     | None => Some (mkPool 3)
                     | Some q => Some q
                     end |},
     inr inst).
Proof.
  intros Hi Hh Hu Hp Hd. destruct st as [i ex]. simpl in Hi. subst i.
  db_unfold. simpl. rewrite Hh, Hu, Hp, Hd. simpl.
  destruct ex; reflexivity.
Qed.

(** One step of a client, by the state it starts in. *)
Lemma connect_with_instance (environ : Environ) (st : class_state)
    (inst : RedshiftDB) :
  _instance st = Some inst -> connect environ st = ([], st, inr inst).
Proof. intros H. db_unfold. now rewrite H. Qed.

Lemma disconnect_keeps_instance (self : RedshiftDB) (st : class_state) :
  exists tr,
    disconnect self st =
      (EngineDisposed (engine self) :: tr,
       {| _instance := _instance st; _executor := None |}, inr tt)
    /\ forallb (fun ev => negb (is_engine_created ev || is_executor_created ev)) tr
       = true.
Proof.
  db_unfold. destruct st as [i [p|]]; simpl.
  - exists [ExecutorShutdown p]. split; reflexivity.
  - exists []. split; reflexivity.
Qed.

Lemma created_app (a b : list db_event) :
  created (a ++ b) = (fst (created a) + fst (created b),
                      snd (created a) + snd (created b)).
Proof. unfold created. simpl. now rewrite !filter_app, !length_app. Qed.

(** Once there is an object, no client creates anything, and the object
    stays. *)
Lemma run_calls_with_instance (calls : list db_call) :
  forall st inst,
    _instance st = Some inst ->
    created (fst (run_calls calls st)) = (0, 0)
    /\ _instance (snd (run_calls calls st)) = Some inst.
Proof.
  induction calls as [|[environ|] calls IH]; intros st inst Hi; simpl.
  - now split.
  - rewrite (connect_with_instance environ st inst Hi).
    destruct (run_calls calls st) as [tr' st''] eqn:E. simpl.
    specialize (IH st inst Hi). now rewrite E in IH.
  - rewrite Hi.
    destruct (disconnect_keeps_instance inst st) as (tr & -> & Htr).
    destruct (run_calls calls {| _instance := _instance st; _executor := None |})
      as [tr' st''] eqn:E.
    specialize (IH {| _instance := _instance st; _executor := None |} inst Hi).
    rewrite E in IH. simpl in *. destruct IH as [IH1 IH2]. split; [|exact IH2].
    change (EngineDisposed (engine inst) :: tr ++ tr')
      with ([EngineDisposed (engine inst)] ++ tr ++ tr').
    assert (Hz : created tr = (0, 0)).
    { clear -Htr. induction tr as [|ev tr IH]; [reflexivity|].
      simpl in Htr. apply andb_true_iff in Htr. destruct Htr as [Hev Htr].
      apply negb_true_iff, orb_false_iff in Hev. destruct Hev as [H1 H2].
      specialize (IH Htr). unfold created in *. simpl. rewrite H1, H2.
      exact IH. }
    rewrite !created_app, IH1, Hz. reflexivity.
Qed.

Lemma connect_without_instance (environ : Environ) (st : class_state) :
  _instance st = None ->
  (exists key, connect environ st = ([], st, inl (KeyError key)))
  \/ (exists tr st' inst,
        connect environ st = (tr, st', inr inst)
        /\ fst (created tr) = 1 /\ snd (created tr) <= 1
        /\ _instance st' = Some inst).
Proof.
  intros Hi. destruct st as [i ex]. simpl in Hi. subst i. db_unfold. simpl.
  destruct (environ "REDSHIFT_HOST"); [|left; eauto].
  destruct (environ "REDSHIFT_USER"); [|left; eauto].
  destruct (environ "REDSHIFT_PASSWORD"); [|left; eauto].
  destruct (environ "REDSHIFT_DB"); [|left; eauto].
  right. simpl. destruct ex; simpl; do 3 eexists;
    (split; [reflexivity|]); simpl; repeat split; lia.
Qed.

(** The class is a singleton for every client: whatever the calls to
    [connect] and [disconnect], in whatever order and with whatever
    environments, starting from the class as it is loaded, at most one
    engine and at most one pool are ever created. *)
Theorem run_calls_creates_once (calls : list db_call) :
  fst (created (fst (run_calls calls fresh_class))) <= 1
  /\ snd (created (fst (run_calls calls fresh_class))) <= 1.
Proof.
  assert (H : forall st, _instance st = None ->
            fst (created (fst (run_calls calls st))) <= 1
            /\ snd (created (fst (run_calls calls st))) <= 1).
  { induction calls as [|[environ|] calls IH]; intros st Hi; simpl.
    - split; lia.
    - destruct (connect_without_instance environ st Hi)
        as [(key & ->) | (tr & st' & inst & -> & H1 & H2 & Hinst)].
      + specialize (IH st Hi).
        destruct (run_calls calls st) as [tr' st'']. exact IH.
      + destruct (run_calls_with_instance calls st' inst Hinst) as [Hz _].
        destruct (run_calls calls st') as [tr' st'']. cbn [fst snd] in *.
        change (fst (created (tr ++ tr')) <= 1 /\ snd (created (tr ++ tr')) <= 1).
        rewrite created_app, Hz. cbn [fst snd]. lia.
    - rewrite Hi. now apply IH. }
  apply H. reflexivity.
Qed.

(** [disconnect] does not forget the object: after it, [connect] hands
    back the object whose engine was disposed of, builds nothing anew,
    and the queries of that object go to the default executor of the
    loop, the pool being gone. *)
Theorem disconnect_keeps_the_instance
    (DataFrame : Type) (execute : Engine -> string -> result DataFrame)
    (environ environ' : Environ) (st st1 : class_state)
    (tr : list db_event) (inst : RedshiftDB) (sql : string) :
  connect environ st = (tr, st1, inr inst) ->
  exists tr2 st2,
    disconnect inst st1 = (EngineDisposed (engine inst) :: tr2, st2, inr tt)
    /\ _executor st2 = None
    /\ connect environ' st2 = ([], st2, inr inst)
    /\ fst (fst (db_run_query execute inst sql st2))
       = [Submitted None (engine inst) sql].
Proof.
  intros H. apply connect_stores_instance in H.
  destruct (disconnect_keeps_instance inst st1) as (tr2 & Hd & _).
  exists tr2, {| _instance := _instance st1; _executor := None |}.
  split; [exact Hd|]. split; [reflexivity|]. split.
  - now apply connect_with_instance.
  - unfold db_run_query, db_bind, db_get, db_emit, db_ret, db_raise. simpl.
    destruct (execute (engine inst) sql); reflexivity.
Qed.

Lemma disconnect_keeps_the_instance_witness :
  exists tr2 st2,
    disconnect example_instance
      {| _instance := Some example_instance; _executor := Some (mkPool 3) |}
    = (EngineDisposed (engine example_instance) :: tr2, st2, inr tt)
    /\ _executor st2 = None
    /\ connect (fun _ => None) st2 = ([], st2, inr example_instance)
    /\ fst (fst (db_run_query (fun _ _ => Return tt) example_instance "SELECT 1" st2))
       = [Submitted None (engine example_instance) "SELECT 1"].
Proof.
  exact (disconnect_keeps_the_instance unit (fun _ _ => Return tt)
           example_environ (fun _ => None) fresh_class _ _ example_instance
           "SELECT 1" eq_refl).
Defined.

(** [app_lifespan]: when [connect] raises, the application is not
    started; otherwise the application runs once on the object, the
    engine of the object is disposed of afterwards and the pool shut down,
    whether the application returned or raised, and what the application
    returned or raised is what comes out. *)
Theorem app_lifespan_always_disconnects
    (A : Type) (environ : Environ) (application : RedshiftDB -> dbm A)
    (st : class_state) :
  match connect environ st with
  | (tr1, st1, inl e) => app_lifespan environ application st = (tr1, st1, inl e)
  | (tr1, st1, inr inst) =>
      match application inst st1 with
      | (tr2, st2, r) =>
          exists tr3,
            app_lifespan environ application st =
              (tr1 ++ tr2 ++ EngineDisposed (engine inst) :: tr3,
               {| _instance := _instance st2; _executor := None |}, r)
            /\ tr3 = match _executor st2 with
                     | Some p => [ExecutorShutdown p]
                     | None => []
                     end
      end
  end.
Proof.
  unfold app_lifespan, db_bind.
  destruct (connect environ st) as [[tr1 st1] [e|inst]]; [reflexivity|].
  destruct (application inst st1) as [[tr2 st2] r].
  db_unfold. destruct st2 as [i [p|]]; simpl; eexists; split; reflexivity.
Qed.

(** ** str.format and the catalog queries *)

Lemma string_app_assoc (a b c : string) :
  ((a ++ b) ++ c = a ++ b ++ c)%string.
Proof. induction a as [|x a IH]; simpl; [reflexivity | now rewrite IH]. Qed.

Lemma string_app_nil_r (a : string) : (a ++ EmptyString = a)%string.
Proof. induction a as [|x a IH]; simpl; [reflexivity | now rewrite IH]. Qed.

Lemma prepend_prepend (a b : string) (r : option (result string)) :
  prepend a (prepend b r) = prepend (a ++ b) r.
Proof.
  destruct r as [[t|e]|]; simpl; try reflexivity.
  now rewrite string_app_assoc.
Qed.

Lemma format_plain (t : string) :
  no_brace t = true ->
  forall r idx args, format (t ++ r) idx args = prepend t (format r idx args).
Proof.
  induction t as [|c t IH]; intros Ht r idx args.
  - simpl. destruct (format r idx args) as [[s|e]|]; reflexivity.
  - simpl in Ht. apply andb_true_iff in Ht. destruct Ht as [Hc Ht].
    apply negb_true_iff, orb_false_iff in Hc. destruct Hc as [H1 H2].
    change ((String c t ++ r)%string) with (String c (t ++ r)%string).
    cbn [format]. rewrite H1, H2, (IH Ht), prepend_prepend. reflexivity.
Qed.

Lemma format_field (r : string) (idx : nat) (args : list string) :
  format ("{}" ++ r) idx args =
  match nth_error args idx with
  | Some a => prepend a (format r (S idx) args)
  | None =>
      Some (Raise (Exn IndexError
        ("Replacement index " ++ str_of_nat idx
         ++ " out of range for positional args tuple")%string))
  end.
Proof. reflexivity. Qed.

Lemma nth_error_skipn (args : list string) (idx : nat) :
  nth_error args idx = hd_error (skipn idx args).
Proof.
  revert args. induction idx as [|idx IH]; intros [|a args]; simpl; auto.
Qed.

Lemma skipn_S_tl (args : list string) (idx : nat) :
  skipn (S idx) args = tl (skipn idx args).
Proof.
  revert args. induction idx as [|idx IH]; intros args.
  - destruct args; reflexivity.
  - destruct args as [|a args]; [reflexivity|].
    change (skipn (S idx) args = tl (skipn idx args)). apply IH.
Qed.

Lemma format_template_from (pieces : list string) :
  forall p0 idx args,
    forallb no_brace (p0 :: pieces) = true ->
    format (template_of p0 pieces) idx args =
    Some match fill p0 pieces (skipn idx args) with
         | Some s => Return s
         | None =>
             Raise (Exn IndexError
               ("Replacement index "
                ++ str_of_nat (idx + List.length (skipn idx args))
                ++ " out of range for positional args tuple")%string)
         end.
Proof.
  induction pieces as [|p rest IH]; intros p0 idx args Hall;
    simpl in Hall; apply andb_true_iff in Hall; destruct Hall as [H0 Hrest].
  - simpl. rewrite <- (string_app_nil_r p0) at 1.
    rewrite (format_plain p0 H0). simpl. now rewrite string_app_nil_r.
  - cbn [template_of fill]. rewrite (format_plain p0 H0), format_field.
    rewrite nth_error_skipn, (IH p (S idx) args Hrest), skipn_S_tl.
    destruct (skipn idx args) as [|a args'] eqn:E; simpl.
    + now rewrite Nat.add_0_r.
    + destruct (fill p rest args') as [s|]; simpl.
      * reflexivity.
      * now rewrite Nat.add_succ_r.
Qed.

(** [str.format] on a template whose only braces are fields [{}]: with
    an argument for every field, the pieces with the arguments in the
    place of the fields, further arguments being ignored; with too few
    arguments, an [IndexError] that names the first field left without
    one. *)
Theorem format_template (p0 : string) (pieces args : list string) :
  forallb no_brace (p0 :: pieces) = true ->
  format (template_of p0 pieces) 0 args =
  Some match fill p0 pieces args with
       | Some s => Return s
       | None =>
           Raise (Exn IndexError
             ("Replacement index " ++ str_of_nat (List.length args)
              ++ " out of range for positional args tuple")%string)
       end.
Proof.
  intros H. apply (format_template_from pieces p0 0 args H).
Qed.

Lemma format_template_witness :
  format "a = {} AND b = {};" 0 ["1"; "{}"; "unused"]
  = Some (Return "a = 1 AND b = {};").
Proof.
  exact (format_template "a = " [" AND b = "; ";"] ["1"; "{}"; "unused"] eq_refl).
Defined.

Lemma filled_plain (t : string) :
  no_brace t = true ->
  forall tpl args out, filled tpl args out ->
                       filled (t ++ tpl) args (t ++ out).
Proof.
  induction t as [|c t IH]; intros Ht tpl args out H; [exact H|].
  simpl in Ht. apply andb_true_iff in Ht. destruct Ht as [Hc Ht].
  apply negb_true_iff in Hc. simpl. constructor; auto.
Qed.

Lemma fill_filled (pieces : list string) :
  forall p0 args s,
    forallb no_brace (p0 :: pieces) = true ->
    List.length args = List.length pieces ->
    fill p0 pieces args = Some s ->
    filled (template_of p0 pieces) args s.
Proof.
  induction pieces as [|p rest IH]; intros p0 args s Hall Hlen Hfill;
    simpl in Hall; apply andb_true_iff in Hall; destruct Hall as [H0 Hrest].
  - destruct args; [|discriminate]. simpl in *. injection Hfill as <-.
    rewrite <- (string_app_nil_r p0). apply filled_plain; [exact H0|].
    constructor.
  - destruct args as [|a args]; [discriminate|]. simpl in Hlen, Hfill.
    destruct (fill p rest args) as [s'|] eqn:E; [|discriminate].
    injection Hfill as <-. cbn [template_of].
    apply filled_plain; [exact H0|]. apply filled_field.
    apply IH; auto.
Qed.

(** How a template of [constants.py] is formatted, from its pieces. *)
Lemma str_format_pieces (p0 : string) (pieces args : list string) :
  forallb no_brace (p0 :: pieces) = true ->
  List.length args = List.length pieces ->
  exists out, str_format (template_of p0 pieces) args = Return out
              /\ filled (template_of p0 pieces) args out.
Proof.
  intros Hall Hlen. unfold str_format.
  rewrite (format_template_from pieces p0 0 args Hall).
  change (skipn 0 args) with args.
  destruct (fill p0 pieces args) as [s|] eqn:E.
  - exists s. split; [reflexivity|]. now apply fill_filled.
  - exfalso. revert E Hlen. clear. revert args p0.
    induction pieces as [|p rest IH]; intros args p0; simpl; [discriminate|].
    destruct args as [|a args]; [discriminate|]. simpl.
    destruct (fill p rest args) eqn:E; [discriminate|].
    intros _ Hlen. injection Hlen as Hlen. eapply IH; eauto.
Qed.

Lemma str_format_filled (tpl : string) (args : list string) :
  tpl = template_of (fst (cut_fields tpl)) (snd (cut_fields tpl)) ->
  forallb no_brace (fst (cut_fields tpl) :: snd (cut_fields tpl)) = true ->
  List.length args = List.length (snd (cut_fields tpl)) ->
  exists out, str_format tpl args = Return out /\ filled tpl args out.
Proof.
  generalize (fst (cut_fields tpl)), (snd (cut_fields tpl)).
  intros p0 pieces -> Hall Hlen. now apply str_format_pieces.
Qed.

(** The catalog queries are well formed for the tools: with the one, two
    and three literals the tools pass, formatting never raises, and its
    result is the template with every field replaced by the literal of
    its rank, taken as it is (a brace inside a literal is not read), and
    nothing else changed.  The query of the databases holds no field. *)
Theorem catalog_templates_format :
  no_brace SVV_REDSHIFT_DATABASES_QUERY = true
  /\ (forall a, exists out,
        str_format SVV_ALL_SCHEMAS_QUERY [a] = Return out
        /\ filled SVV_ALL_SCHEMAS_QUERY [a] out)
  /\ (forall a b, exists out,
        str_format SVV_ALL_TABLES_QUERY [a; b] = Return out
        /\ filled SVV_ALL_TABLES_QUERY [a; b] out)
  /\ (forall a b c, exists out,
        str_format SVV_ALL_COLUMNS_QUERY [a; b; c] = Return out
        /\ filled SVV_ALL_COLUMNS_QUERY [a; b; c] out).
Proof.
  split; [reflexivity|].
  split; [|split]; intros; apply str_format_filled; reflexivity.
Qed.

(** ** The catalog tools *)

Lemma filled_functional (tpl : string) (args : list string) (out : string) :
  filled tpl args out -> forall out', filled tpl args out' -> out = out'.
Proof.
  induction 1 as [|c tpl args out Hc H IH|tpl a args out H IH]; intros out' H'.
  - inversion H'. reflexivity.
  - inversion H'; subst.
    + f_equal. now apply IH.
    + discriminate.
  - inversion H'; subst.
    + discriminate.
    + f_equal. now apply IH.
Qed.

(** Case analysis on the results of the collaborators, in the order of
    the calls. *)
Ltac shape_step :=
  match goal with
  | |- context [match ?r with Return _ => _ | Raise _ => _ end] => destruct r
  end.

Ltac shape_cases :=
  repeat (cbn [quote_all astype_all bind lift io_bind emit io_ret app
                 query_database];
          try reflexivity; shape_step).

Section CatalogToolsFacts.

Variable literal_compile : PyValue -> result string.
Variable DataFrame Row Model : Type.
Variable to_dict : DataFrame -> list Row.
Variable model_validate : model_class -> Row -> result Model.
Variable astype_Int64 : DataFrame -> string -> result DataFrame.
Variable run_query : string -> result DataFrame.
Variable db_host : string.

Local Abbreviation tool :=
  (run_tool literal_compile DataFrame Row Model to_dict model_validate
            astype_Int64 run_query db_host).
Local Abbreviation shape :=
  (catalog_tool literal_compile DataFrame Row Model to_dict model_validate
                astype_Int64 run_query).
Local Abbreviation quoted :=
  (fun name l => quote_sql_literal literal_compile (PyStr name) = Return l).
Local Abbreviation validated cls :=
  (fun row m => model_validate cls row = Return m).

Lemma quote_all_Return (names literals : list string) :
  quote_all literal_compile names = Return literals <->
  Forall2 quoted names literals.
Proof.
  revert literals. induction names as [|n names IH]; intros literals; simpl.
  - split; intros H.
    + injection H as <-. constructor.
    + inversion H. reflexivity.
  - destruct (quote_sql_literal literal_compile (PyStr n)) as [l|e] eqn:El; simpl.
    + destruct (quote_all literal_compile names) as [ls|e] eqn:Els; simpl.
      * split; intros H.
        -- injection H as <-. constructor; [exact El|]. now apply IH.
        -- inversion H as [|? l' ? ls' Hl Hls]; subst.
           apply IH in Hls. congruence.
      * split; intros H; [discriminate|].
        inversion H as [|? l' ? ls' Hl Hls]; subst.
        apply IH in Hls. discriminate.
    + split; intros H; [discriminate|].
      inversion H as [|? l' ? ls' Hl Hls]; subst. congruence.
Qed.

Lemma quote_all_Raise (names : list string) (e : exn) :
  quote_all literal_compile names = Raise e ->
  exists name, In name names
               /\ quote_sql_literal literal_compile (PyStr name) = Raise e.
Proof.
  induction names as [|n names IH]; simpl; [discriminate|].
  destruct (quote_sql_literal literal_compile (PyStr n)) as [l|e'] eqn:El; simpl.
  - destruct (quote_all literal_compile names) as [ls|e'] eqn:Els; simpl;
      [discriminate|].
    intros H. injection H as ->. destruct (IH eq_refl) as [m [Hm He]].
    exists m. auto.
  - intros H. injection H as ->. exists n. auto.
Qed.

Lemma quote_all_length (names literals : list string) :
  quote_all literal_compile names = Return literals ->
  List.length literals = List.length names.
Proof.
  intros H. apply quote_all_Return in H.
  induction H; simpl; congruence.
Qed.

Lemma validate_all_Return (cls : model_class) (rows : list Row)
      (models : list Model) :
  validate_all Row Model model_validate cls rows = Return models <->
  Forall2 (validated cls) rows models.
Proof.
  revert models. induction rows as [|r rows IH]; intros models; simpl.
  - split; intros H.
    + injection H as <-. constructor.
    + inversion H. reflexivity.
  - destruct (model_validate cls r) as [m|e] eqn:Em; simpl.
    + destruct (validate_all Row Model model_validate cls rows) as [ms|e] eqn:Ems;
        simpl.
      * split; intros H.
        -- injection H as <-. constructor; [exact Em|]. now apply IH.
        -- inversion H as [|? m' ? ms' Hm Hms]; subst.
           apply IH in Hms. congruence.
      * split; intros H; [discriminate|].
        inversion H as [|? m' ? ms' Hm Hms]; subst.
        apply IH in Hms. discriminate.
    + split; intros H; [discriminate|].
      inversion H as [|? m' ? ms' Hm Hms]; subst. congruence.
Qed.



(** Each tool has the common shape. *)
Lemma run_tool_shape (call : catalog_call) :
  exists start done log_msg client_msg,
    tool call =
    shape start done log_msg (client_msg ++ db_host ++ ": ")%string
          (tool_names call) (tool_template call) (tool_int_columns call)
          (tool_class call).
Proof.
  destruct call as [|db|db sc|db sc tb].
  - exists ("Listing databases in the Redshift cluster " ++ db_host)%string,
      (fun n => "Successfully retrieved " ++ str_of_nat n
                ++ " databases from cluster")%string,
      "Error in list_databases_tool: ",
      "Failed to list databases on cluster ".
    unfold run_tool, list_database_tool, catalog_tool, tool_names,
      tool_template, tool_int_columns, tool_class.
    cbn [quote_all bind lift io_bind emit app].
    replace (str_format SVV_REDSHIFT_DATABASES_QUERY [])
      with (Return SVV_REDSHIFT_DATABASES_QUERY) by reflexivity.
    shape_cases.
  - exists ("Listing schemas for database: " ++ db
                      ++ " in cluster " ++ db_host)%string,
      (fun n => "Successfully retrieved " ++ str_of_nat n
                      ++ " schemas for database " ++ db)%string,
      ("Error listing schemas for database " ++ db ++ ": ")%string,
      ("Failed to list schemas for database " ++ db
               ++ " on cluster ")%string.
    unfold run_tool, list_schemas_tool, catalog_tool, tool_names,
      tool_template, tool_int_columns, tool_class.
    replace (("Failed to list schemas for database " ++ db
               ++ " on cluster ") ++ db_host ++ ": ")%string
      with ("Failed to list schemas for database " ++ db
               ++ " on cluster " ++ db_host ++ ": ")%string
      by (now rewrite !string_app_assoc).
    shape_cases.
  - exists ("Listing tables for database: " ++ db ++ ", schema: "
                      ++ sc ++ " in cluster " ++ db_host)%string,
      (fun n => "Successfully retrieved " ++ str_of_nat n
                      ++ " tables for database " ++ db ++ ", schema "
                      ++ sc)%string,
      ("Error listing tables for database " ++ db ++ ", schema "
               ++ sc ++ ": ")%string,
      ("Failed to list tables for database " ++ db ++ ", schema "
               ++ sc ++ " on cluster ")%string.
    unfold run_tool, list_tables_tool, catalog_tool, tool_names,
      tool_template, tool_int_columns, tool_class.
    replace (("Failed to list tables for database " ++ db ++ ", schema "
               ++ sc ++ " on cluster ") ++ db_host ++ ": ")%string
      with ("Failed to list tables for database " ++ db ++ ", schema "
               ++ sc ++ " on cluster " ++ db_host ++ ": ")%string
      by (now rewrite !string_app_assoc).
    shape_cases.
  - exists ("Listing columns for database: " ++ db ++ ", schema: "
                      ++ sc ++ ", table: " ++ tb
                      ++ " in cluster " ++ db_host)%string,
     (fun n => "Successfully retrieved " ++ str_of_nat n
                      ++ " columns for database " ++ db ++ ", schema "
                      ++ sc ++ ", table " ++ tb)%string,
     ("Error listing columns for database " ++ db ++ ", schema "
               ++ sc ++ ", table " ++ tb ++ ": ")%string,
     ("Failed to list columns for database " ++ db ++ ", schema "
               ++ sc ++ ", table " ++ tb ++ " on cluster ")%string.
    unfold run_tool, list_columns_tool, catalog_tool, tool_names,
      tool_template, tool_int_columns, tool_class.
    replace (("Failed to list columns for database " ++ db ++ ", schema "
               ++ sc ++ ", table " ++ tb ++ " on cluster ") ++ db_host ++ ": ")%string
      with ("Failed to list columns for database " ++ db ++ ", schema "
               ++ sc ++ ", table " ++ tb ++ " on cluster "
               ++ db_host ++ ": ")%string
      by (now rewrite !string_app_assoc).
    shape_cases.
Qed.

Lemma failed_outcome (A : Type) (log_msg client_msg : string)
      (pre : list event) (e : exn) :
  snd (@failed A log_msg client_msg pre e) = Raise e.
Proof. unfold failed. destruct (is_exception e); reflexivity. Qed.

Lemma failed_queries (A : Type) (log_msg client_msg : string)
      (pre : list event) (e : exn) :
  filter is_run_query (fst (@failed A log_msg client_msg pre e))
  = filter is_run_query pre.
Proof.
  unfold failed. destruct (is_exception e); cbn [fst]; [|reflexivity].
  rewrite filter_app. cbn. apply app_nil_r.
Qed.


(** What a tool of the common shape does, by the results of its
    collaborators. *)
Lemma catalog_tool_run (start : string) (done : nat -> string)
      (log_msg client_msg : string) (names : list string) (tpl : string)
      (columns : list string) (cls : model_class) :
  shape start done log_msg client_msg names tpl columns cls =
  match quote_all literal_compile names with
  | Raise e => failed log_msg client_msg [LogInfo start] e
  | Return literals =>
      match str_format tpl literals with
      | Raise e => failed log_msg client_msg [LogInfo start] e
      | Return sql =>
          match run_query sql with
          | Raise e => failed log_msg client_msg [LogInfo start; RunQuery sql] e
          | Return frame =>
              match astype_all DataFrame astype_Int64 columns frame with
              | Raise e =>
                  failed log_msg client_msg [LogInfo start; RunQuery sql] e
              | Return frame' =>
                  match validate_all Row Model model_validate cls
                                     (to_dict frame') with
                  | Raise e =>
                      failed log_msg client_msg [LogInfo start; RunQuery sql] e
                  | Return models =>
                      ([LogInfo start; RunQuery sql;
                        LogInfo (done (List.length models))], Return models)
                  end
              end
          end
      end
  end.
Proof.
  unfold catalog_tool, query_database, report, try_except, failed.
  destruct (quote_all literal_compile names) as [literals|e];
    [|cbn; destruct (is_exception e); reflexivity].
  cbn [bind lift io_bind emit io_ret app].
  destruct (str_format tpl literals) as [sql|e];
    [|cbn; destruct (is_exception e); reflexivity].
  destruct (run_query sql) as [frame|e];
    [|cbn; destruct (is_exception e); reflexivity].
  destruct (astype_all DataFrame astype_Int64 columns frame) as [frame'|e];
    [|cbn; destruct (is_exception e); reflexivity].
  destruct (validate_all Row Model model_validate cls (to_dict frame'))
    as [models|e]; [reflexivity|].
  cbn; destruct (is_exception e); reflexivity.
Qed.

(** The template of a call takes the literals of its names. *)
Lemma tool_template_format (call : catalog_call) (literals : list string) :
  List.length literals = List.length (tool_names call) ->
  exists q, str_format (tool_template call) literals = Return q
            /\ filled (tool_template call) literals q.
Proof.
  intros Hlen.
  destruct call; apply str_format_filled; solve [reflexivity | exact Hlen].
Qed.

(** The database is asked at most once, and only for the template of the
    tool filled with the literals of the names of the call, in the order
    of the arguments: either [quote_sql_literal] raises on one of the
    names and the database is not asked at all, or every name has its
    literal and the one query sent is the template with these literals in
    the place of its fields. *)
Theorem catalog_tool_database_call (call : catalog_call) :
  (exists name e,
      In name (tool_names call)
      /\ quote_sql_literal literal_compile (PyStr name) = Raise e
      /\ filter is_run_query (fst (tool call)) = [])
  \/ (exists literals q,
         Forall2 quoted (tool_names call) literals
         /\ filled (tool_template call) literals q
         /\ filter is_run_query (fst (tool call)) = [RunQuery q]).
Proof.
  destruct (run_tool_shape call) as [start [done [lm [cm ->]]]].
  rewrite catalog_tool_run.
  destruct (quote_all literal_compile (tool_names call)) as [literals|e] eqn:Eq.
  - right.
    destruct (tool_template_format call literals (quote_all_length _ _ Eq))
      as [q [Hq Hfilled]].
    exists literals, q. rewrite Hq.
    split; [now apply quote_all_Return|]. split; [exact Hfilled|].
    destruct (run_query q) as [frame|e]; [|now rewrite failed_queries].
    destruct (astype_all DataFrame astype_Int64 (tool_int_columns call) frame)
      as [frame'|e]; [|now rewrite failed_queries].
    destruct (validate_all Row Model model_validate (tool_class call)
                           (to_dict frame')) as [models|e];
      [reflexivity | now rewrite failed_queries].
  - left. destruct (quote_all_Raise _ _ Eq) as [name [Hin Hname]].
    exists name, e. rewrite failed_queries. auto.
Qed.



(** When a tool returns: it returns [models] exactly when every name has
    its literal, the database answers the filled template with a frame,
    the integer columns convert, and [models] holds the validated object
    of each record of the frame, in the order of the records.  Its trace
    is then the start logged, the query, and the count logged: nothing is
    reported as a failure. *)
Theorem catalog_tool_success (call : catalog_call) (models : list Model) :
  (snd (tool call) = Return models <->
   exists literals q frame frame',
     Forall2 quoted (tool_names call) literals
     /\ filled (tool_template call) literals q
     /\ run_query q = Return frame
     /\ astype_all DataFrame astype_Int64 (tool_int_columns call) frame
        = Return frame'
     /\ Forall2 (validated (tool_class call)) (to_dict frame') models)
  /\ (snd (tool call) = Return models ->
      exists start q done,
        fst (tool call) = [LogInfo start; RunQuery q; LogInfo done]).
Proof.
  destruct (run_tool_shape call) as [start [done [lm [cm ->]]]].
  rewrite catalog_tool_run.
  destruct (quote_all literal_compile (tool_names call)) as [literals|e1] eqn:Eq.
  2:{ rewrite failed_outcome. split; [split|]; try discriminate.
      intros [literals [q [frame [frame' [Hl _]]]]].
      apply quote_all_Return in Hl. congruence. }
  destruct (tool_template_format call literals (quote_all_length _ _ Eq))
    as [q [Hq Hfilled]].
  rewrite Hq.
  assert (Hsame : forall literals' q',
             Forall2 quoted (tool_names call) literals' ->
             filled (tool_template call) literals' q' -> q' = q).
  { intros literals' q' Hl Hf. apply quote_all_Return in Hl.
    assert (literals' = literals) by congruence. subst literals'.
    exact (filled_functional _ _ _ Hf _ Hfilled). }
  destruct (run_query q) as [frame|e1] eqn:Er.
  2:{ rewrite failed_outcome. split; [split|]; try discriminate.
      intros [literals' [q' [frame [frame' [Hl [Hf [Hr _]]]]]]].
      rewrite (Hsame _ _ Hl Hf) in Hr. congruence. }
  destruct (astype_all DataFrame astype_Int64 (tool_int_columns call) frame)
    as [frame'|e1] eqn:Ea.
  2:{ rewrite failed_outcome. split; [split|]; try discriminate.
      intros [literals' [q' [frame1 [frame' [Hl [Hf [Hr [Ha _]]]]]]]].
      rewrite (Hsame _ _ Hl Hf) in Hr.
      assert (frame1 = frame) by congruence. subst frame1. congruence. }
  destruct (validate_all Row Model model_validate (tool_class call)
                         (to_dict frame')) as [models'|e1] eqn:Ev.
  2:{ rewrite failed_outcome. split; [split|]; try discriminate.
      intros [literals' [q' [frame1 [frame1' [Hl [Hf [Hr [Ha Hv]]]]]]]].
      rewrite (Hsame _ _ Hl Hf) in Hr.
      assert (frame1 = frame) by congruence. subst frame1.
      assert (frame1' = frame') by congruence. subst frame1'.
      apply validate_all_Return in Hv. congruence. }
  split; [split|].
  - intros H. injection H as <-.
    exists literals, q, frame, frame'.
    split; [now apply quote_all_Return|].
    split; [exact Hfilled|]. split; [exact Er|]. split; [exact Ea|].
    now apply validate_all_Return.
  - intros [literals' [q' [frame1 [frame1' [Hl [Hf [Hr [Ha Hv]]]]]]]].
    rewrite (Hsame _ _ Hl Hf) in Hr.
    assert (frame1 = frame) by congruence. subst frame1.
    assert (frame1' = frame') by congruence. subst frame1'.
    apply validate_all_Return in Hv. cbn [snd]. congruence.
  - intros _. cbn [fst]. eauto.
Qed.

End CatalogToolsFacts.



Lemma catalog_tool_success_witness :
  exists literals q frame frame',
    Forall2 (fun name l => example_literal_compile (PyStr name) = Return l)
            ["dev"; "public"] literals
    /\ filled SVV_ALL_TABLES_QUERY literals q
    /\ example_run_query q = Return frame
    /\ astype_all (list string) example_astype [] frame = Return frame'
    /\ Forall2 (fun row m => example_model_validate RedshiftTable row = Return m)
               frame' ["dev"; "prod"].
Proof.
  exact (proj1 (proj1 (catalog_tool_success
           example_literal_compile (list string) string string
           (fun frame => frame) example_model_validate example_astype
           example_run_query "cluster" (ListTables "dev" "public")
           ["dev"; "prod"])) eq_refl).
Defined.

(** ** The guard, from outside *)

Lemma list_ascii_of_string_app (a b : string) :
  list_ascii_of_string (a ++ b)
  = list_ascii_of_string a ++ list_ascii_of_string b.
Proof. induction a as [|c a IH]; simpl; [reflexivity | now rewrite IH]. Qed.

Lemma word_of_KEYWORDS_nonempty (kw : text) :
  word_of KEYWORDS kw -> kw <> [].
Proof.
  intros (k & Hk & Hm) ->. simpl in Hk.
  repeat (destruct Hk as [<- | Hk]; [discriminate|]). exact Hk.
Qed.

(** What follows a run of separators matters by its first character
    only. *)
Lemma separators_follow (comment : text -> Prop) (x f f' : text) :
  x <> [] ->
  forall s, separators comment s (x ++ f) -> separators comment s (x ++ f').
Proof.
  intros Hx s H. remember (x ++ f) as F eqn:HF.
  induction H as [follow | t ts follow Ht Hts IH]; subst follow.
  - constructor.
  - constructor; [|now apply IH].
    inversion Ht as [body follow0 Hbody Hfollow Ht0 Hf0 | t0 follow0 Hc
                    | c follow0 Hc | follow0]; subst.
    + apply sep_line_comment; [exact Hbody|]. right.
      destruct Hfollow as [Hnil | (g & Hg)].
      * exfalso. destruct ts; [destruct x; [now apply Hx | discriminate]
                              | discriminate].
      * destruct ts as [|c ts]; simpl in *.
        -- destruct x as [|c x]; [now exfalso; apply Hx|].
           simpl in *. injection Hg as -> _. eauto.
        -- injection Hg as -> _. eauto.
    + now apply sep_block_comment.
    + now apply sep_whitespace.
    + apply sep_semicolon.
Qed.

Lemma escape_follow (comment : text -> Prop) (body post post' : text) :
  escape comment body post -> escape comment body post'.
Proof.
  intros (s1 & kw & opt & s2 & -> & H1 & Hkw & Hopt & H2).
  assert (Hne := word_of_KEYWORDS_nonempty kw Hkw).
  exists s1, kw, opt, s2. split; [reflexivity|]. split; [|split; [exact Hkw|split]].
  - exact (separators_follow comment kw _ (opt ++ s2 ++ ";"%char :: post')
             Hne s1 H1).
  - destruct Hopt as [-> | (s & w & -> & Hs & Hsep & Hw)]; [now left|].
    right. exists s, w. split; [reflexivity|]. split; [exact Hs|].
    split; [|exact Hw].
    refine (separators_follow comment w _ (s2 ++ ";"%char :: post') _ s Hsep).
    destruct Hw as (k & Hk & Hm). intros ->.
    simpl in Hk. repeat (destruct Hk as [<- | Hk]; [discriminate|]). exact Hk.
  - refine (separators_follow comment [";"%char] post post' _ s2 H2).
    discriminate.
Qed.

Lemma last_char_app_nonempty (p pre : text) :
  pre <> [] -> last_char (p ++ pre) = last_char pre.
Proof.
  intros H. unfold last_char. rewrite rev_app_distr.
  destruct (rev pre) as [|c r] eqn:E; [|reflexivity].
  exfalso. apply H. apply (f_equal (@rev ascii)) in E.
  now rewrite rev_involutive in E.
Qed.

Lemma described_extend (comment : text -> Prop) (p sql t : text) :
  line_boundary (last_char p) = true ->
  described comment line_boundary sql ->
  described comment line_boundary (p ++ sql ++ t).
Proof.
  intros Hp (pre & body & post & -> & Hb & He).
  exists (p ++ pre), body, (post ++ t).
  split; [now rewrite <- !app_assoc|]. split.
  - destruct pre as [|c pre]; [now rewrite app_nil_r|].
    rewrite last_char_app_nonempty; [exact Hb | discriminate].
  - now apply (escape_follow comment body post).
Qed.

Lemma suspicious_scan_keyword_semicolon (sql : text) :
  suspicious_scan sql = true ->
  exists a kw b, sql = a ++ kw ++ b /\ word_of KEYWORDS kw /\ In ";"%char b.
Proof.
  intros Hs. apply suspicious_scan_described in Hs.
  destruct Hs as (pre & body & post & -> & _ & He).
  destruct He as (s1 & kw & opt & s2 & -> & _ & Hkw & _ & _).
  exists (pre ++ s1), kw, (opt ++ s2 ++ [";"%char] ++ post).
  split; [now rewrite <- !app_assoc|]. split; [exact Hkw|].
  apply in_or_app. right. apply in_or_app. right. now left.
Qed.

(** The guard only signals a text that holds one of the keywords END,
    COMMIT, ROLLBACK, ABORT, in any mix of cases, with a semicolon
    somewhere after it: a text without a semicolon, or without any of
    these words, always passes. *)
Theorem check_for_suspicious_sql_needs_keyword_and_semicolon
    (sql : string) (e : exn) :
  check_for_suspicious_sql sql = Raise e ->
  exists a kw b,
    list_ascii_of_string sql = a ++ kw ++ b
    /\ word_of KEYWORDS kw
    /\ In ";"%char b.
Proof.
  intros H. apply suspicious_scan_keyword_semicolon.
  apply check_for_suspicious_sql_raises. eauto.
Qed.

Lemma check_for_suspicious_sql_needs_keyword_and_semicolon_witness :
  exists a kw b,
    list_ascii_of_string "SELECT 1; end;" = a ++ kw ++ b
    /\ word_of KEYWORDS kw
    /\ In ";"%char b.
Proof.
  exact (check_for_suspicious_sql_needs_keyword_and_semicolon
           "SELECT 1; end;" _ eq_refl).
Defined.

(** An escape cannot be hidden by the text around it: a text the guard
    signals is still signalled with any text put after it, and with any
    text put before it that ends with a semicolon or a line feed. *)
Theorem check_for_suspicious_sql_escape_stays (sql : string) (e : exn) :
  check_for_suspicious_sql sql = Raise e ->
  forall p t : string,
    (exists e', check_for_suspicious_sql (sql ++ t) = Raise e')
    /\ (exists e', check_for_suspicious_sql (p ++ ";" ++ sql ++ t) = Raise e')
    /\ (exists e', check_for_suspicious_sql (p ++ nl ++ sql ++ t) = Raise e').
Proof.
  intros H p t.
  assert (Hs : described regex_comment line_boundary (list_ascii_of_string sql)).
  { apply suspicious_scan_described, check_for_suspicious_sql_raises. eauto. }
  split; [|split]; apply check_for_suspicious_sql_raises,
                         suspicious_scan_described.
  - rewrite list_ascii_of_string_app.
    apply (described_extend regex_comment [] _ _ eq_refl Hs).
  - rewrite (list_ascii_of_string_app p), (list_ascii_of_string_app ";"),
      (list_ascii_of_string_app sql).
    change (list_ascii_of_string ";" ++ list_ascii_of_string sql
            ++ list_ascii_of_string t)
      with ([";"%char] ++ list_ascii_of_string sql ++ list_ascii_of_string t).
    rewrite app_assoc. apply described_extend; [|exact Hs].
    now rewrite last_char_app_one.
  - rewrite (list_ascii_of_string_app p), (list_ascii_of_string_app nl),
      (list_ascii_of_string_app sql).
    change (list_ascii_of_string nl ++ list_ascii_of_string sql
            ++ list_ascii_of_string t)
      with ([LF] ++ list_ascii_of_string sql ++ list_ascii_of_string t).
    rewrite app_assoc. apply described_extend; [|exact Hs].
    now rewrite last_char_app_one.
Qed.

Lemma check_for_suspicious_sql_escape_stays_witness :
  (exists e', check_for_suspicious_sql ("commit;" ++ " SELECT 1") = Raise e')
  /\ (exists e', check_for_suspicious_sql
                   ("SELECT 1" ++ ";" ++ "commit;" ++ " SELECT 1") = Raise e')
  /\ (exists e', check_for_suspicious_sql
                   ("SELECT 1" ++ nl ++ "commit;" ++ " SELECT 1") = Raise e').
Proof.
  exact (check_for_suspicious_sql_escape_stays "commit;" _ eq_refl
           "SELECT 1" " SELECT 1").
Defined.

(** ** execute_sql_tool: what the client is told *)




